(** * Aura storefront: the client-side orchestration over the remote model

    A shallow embedding of the logic of
      - [src/services/geminiService.ts] (the exported remote-call functions),
      - the [LanguageProvider] component (translation cache, pending set,
        debounced batch translation), and
      - [src/components/Checkout.tsx] (postal-code lookup and shipping estimate).

    Conventions.
      - A JavaScript string is a [string], one character per code unit; every
        string literal of the source is ASCII.
      - A JavaScript [number] is a rational [Q]; no arithmetic on it is needed
        beyond the constants of the source.
      - [undefined]/[null] are [None]; truthiness of a string is
        non-emptiness.
      - An [async] function is cut at each [await] of a remote call: the part
        before it and the continuation are separate state transformers, and
        the outcome of the remote call is an input of the continuation. *)

From Stdlib Require Import String Ascii List Bool Arith Lia QArith.
From stdpp Require Import base gmap strings list.

Local Open Scope string_scope.
Local Open Scope list_scope.

(** ** JavaScript primitives *)

Module Js.

(** [if (s)] on a string. *)
Definition truthy (s : string) : bool := negb (String.eqb s "").

(** [if (o)] on a possibly undefined string. *)
Definition truthy_opt (o : option string) : bool :=
  match o with
  | Some s => truthy s
  | None => false
  end.

(** [if (n)] on a number. *)
Definition truthy_num (n : Q) : bool := negb (Qeq_bool n 0).

Definition lower_char (c : ascii) : ascii :=
  let n := nat_of_ascii c in
  if (65 <=? n)%nat && (n <=? 90)%nat then ascii_of_nat (n + 32) else c.

(** [s.toLowerCase()] on the letters A-Z.  The only use in the source is
    [text.toLowerCase().includes('quiet living')]; no character outside
    A-Z lowers to a sequence that can take part in a match of that
    pattern, so the test is decided by the ASCII letters alone. *)
Fixpoint toLowerCase (s : string) : string :=
  match s with
  | EmptyString => EmptyString
  | String c rest => String (lower_char c) (toLowerCase rest)
  end.

(** [hay.includes(needle)]. *)
Fixpoint includes (needle hay : string) : bool :=
  String.prefix needle hay ||
  match hay with
  | EmptyString => false
  | String _ rest => includes needle rest
  end.

(** A [Set<string>]: insertion-ordered, [Array.from] lists the elements
    in that order. *)
Module StringSet.
Definition empty : list string := [].
Definition add (x : string) (s : list string) : list string :=
  if bool_decide (x ∈ s) then s else s ++ [x].
Definition clear (s : list string) : list string := [].
Definition to_array (s : list string) : list string := s.
End StringSet.

End Js.

(** ** Exceptions and the log of remote requests *)

(** The kinds of prompt the service sends with [ai.models.generateContent];
    the wording of each prompt is a constant of the source and is left out. *)
Inductive prompt : Type :=
| ImagePrompt (prompt : string) (inputImageBase64 : option string)
| TranslateDetailsPrompt (description : string) (features : list string) (targetLanguage : string)
| TranslateContentPrompt (text : string) (targetLanguage : string)
| TranslateBatchPrompt (texts : list string) (targetLanguage : string)
| ZipPrompt (zipCode : string)
| ShippingPrompt (zipCode country : string) (city : option string).

(** Modelled from the spec: the [Product] type of [types.ts] is not among
    the sources.  The spec speaks of product references only; the fields
    here are the ones [getSystemInstruction] reads of the active product.
    The record travels in the chat request and is never inspected. *)
Record Product : Type := {
  p_name : string;
  p_price : Q;
  p_tagline : string;
  p_category : string;
  p_description : string;
  p_longDescription : option string;
  p_features : list string
}.

Inductive chat_message : Type :=
| UserTurn (newMessage : string) (imageBase64 : option string)
| FunctionResponse (name result : string).

Inductive request : Type :=
| GenerateContent (model : string) (contents : prompt)
| ChatSendMessage (model : string) (history : list (string * string))
    (activeProduct : option Product) (message : chat_message).

(** Completion of a piece of code: a value, or a thrown exception (for an
    awaited promise, a rejection). *)
Inductive exc (A : Type) : Type :=
| Returned (a : A)
| Thrown.
Arguments Returned {A} a.
Arguments Thrown {A}.

(** Service code runs against the log of the requests sent so far. *)
Definition M (A : Type) : Type := list request → exc A * list request.

Definition ret {A} (a : A) : M A := λ log, (Returned a, log).
Definition throw {A} : M A := λ log, (Thrown, log).
Definition bind {A B} (m : M A) (k : A → M B) : M B :=
  λ log, match m log with
         | (Returned a, log') => k a log'
         | (Thrown, log') => (Thrown, log')
         end.
(** [try { body } catch (e) { handler }]. *)
Definition try_catch {A} (body handler : M A) : M A :=
  λ log, match body log with
         | (Returned a, log') => (Returned a, log')
         | (Thrown, log') => handler log'
         end.

Declare Scope service_scope.
Delimit Scope service_scope with service.
Notation "'let!' x ':=' m 'in' k" := (bind m (λ x, k))
  (at level 10, x name, m at level 100, k at level 200) : service_scope.
Local Open Scope service_scope.

(** *** The process configuration *)

Inductive process_env : Type :=
| EnvThrows                       (* reading [process.env] throws *)
| EnvKey (API_KEY : option string).

(** [try { apiKey = process.env.API_KEY } catch (e) { ... }] *)
Definition read_API_KEY (env : process_env) : option string :=
  match env with
  | EnvThrows => None
  | EnvKey k => k
  end.

(** *** Outcomes of the remote calls *)

(** A response whose [text] is read as JSON of type [A]. *)
Inductive response (A : Type) : Type :=
| NoText                          (* [response.text] is undefined or empty *)
| NotJson                         (* [JSON.parse(response.text)] throws *)
| Json (v : A).                   (* [JSON.parse(response.text)] is [v] *)
Arguments NoText {A}.
Arguments NotJson {A}.
Arguments Json {A} v.

Inductive reply (A : Type) : Type :=
| Rejected                        (* the awaited call rejects *)
| Resolved (r : A).
Arguments Rejected {A}.
Arguments Resolved {A} r.

(** [await ai.models.generateContent(...)] and [await chat.sendMessage(...)]:
    the request is sent, then the call resolves or rejects. *)
Definition send {A} (req : request) (outcome : reply A) : M A :=
  λ log, match outcome with
         | Rejected => (Thrown, log ++ [req])
         | Resolved r => (Returned r, log ++ [req])
         end.

(** [if (response.text) { return JSON.parse(response.text); } return fallback;] *)
Definition parse_or {A} (r : response A) (fallback : A) : M A :=
  match r with
  | NoText => ret fallback
  | NotJson => throw
  | Json v => ret v
  end.

(** ** The service functions ([geminiService.ts]) *)

(** Constructing the client ([new GoogleGenAI({ apiKey })]) and the chat
    ([ai.chats.create]) sends nothing; only [generateContent] and
    [sendMessage] reach the remote model. *)

Module Service.

Definition flash : string := "gemini-2.5-flash".
Definition flash_image : string := "gemini-2.5-flash-image".

Definition missing_key_message : string :=
  "I'm sorry, I cannot connect to the server right now. (Missing API Key)".
Definition apology : string :=
  "I apologize, but I seem to be having trouble reaching our archives at the moment.".

(** One call requested by the model ([result.functionCalls[i]]);
    [fc_args = None] when [args] is undefined, in which case reading
    [call.args.prompt] throws. *)
Record functionCall : Type := {
  fc_name : string;
  fc_args : option string
}.

Record chat_result : Type := {
  functionCalls : list functionCall;
  result_text : option string
}.

(** What [sendMessageToGemini] resolves to: [{ text, image? }]. *)
Record answer : Type := {
  text : option string;
  image : option string
}.

(** The outcomes of the remote calls one concierge turn can make: the
    user's turn, the image generation, the turn reporting the tool's
    result.  Each part of the first candidate of the image response is
    given by its [inlineData.data]. *)
Record concierge_remote : Type := {
  user_turn : reply chat_result;
  image_call : reply (list (option string));
  tool_turn : reply chat_result
}.

(** The loop over the parts: the first part with [inlineData.data]. *)
Fixpoint first_inline_data (parts : list (option string)) : option string :=
  match parts with
  | [] => None
  | part :: rest =>
      if Js.truthy_opt part then part else first_inline_data rest
  end.

Definition generateImageWithNanoBanana (apiKey : string) (prompt : string)
    (inputImageBase64 : option string)
    (remote : reply (list (option string))) : M (option string) :=
  let image_input :=
    if Js.truthy_opt inputImageBase64 then inputImageBase64 else None in
  try_catch
    (let! parts := send (GenerateContent flash_image (ImagePrompt prompt image_input)) remote in
     ret (first_inline_data parts))
    (ret None).

Definition sendMessageToGemini (env : process_env) (remote : concierge_remote)
    (history : list (string * string)) (newMessage : string)
    (activeProduct : option Product) (imageBase64 : option string) : M answer :=
  try_catch
    (match read_API_KEY env with
     | Some apiKey =>
         if negb (Js.truthy apiKey)
         then ret {| text := Some missing_key_message; image := None |}
         else
           let chat message := ChatSendMessage flash history activeProduct message in
           let image_input :=
             if Js.truthy_opt imageBase64 then imageBase64 else None in
           let! result := send (chat (UserTurn newMessage image_input)) (user_turn remote) in
           match head (functionCalls result) with
           | Some call =>
               if String.eqb (fc_name call) "edit_image" then
                 let! prompt :=
                   match fc_args call with
                   | Some p => ret p
                   | None => throw
                   end in
                 let! generatedImage :=
                   generateImageWithNanoBanana apiKey prompt imageBase64 (image_call remote) in
                 if Js.truthy_opt generatedImage then
                   let! toolResponse :=
                     send (chat (FunctionResponse "edit_image" "Image generated successfully."))
                          (tool_turn remote) in
                   ret {| text := result_text toolResponse; image := generatedImage |}
                 else
                   let! toolResponse :=
                     send (chat (FunctionResponse "edit_image" "Failed to generate image."))
                          (tool_turn remote) in
                   ret {| text := result_text toolResponse; image := None |}
               else ret {| text := result_text result; image := None |}
           | None => ret {| text := result_text result; image := None |}
           end
     | None => ret {| text := Some missing_key_message; image := None |}
     end)
    (ret {| text := Some apology; image := None |}).

Record translatedDetails : Type := {
  translatedDescription : string;
  translatedFeatures : list string
}.

Definition translateProductDetails (env : process_env)
    (remote : reply (response (option translatedDetails)))
    (description : string) (features : list string) (targetLanguage : string)
    : M (option translatedDetails) :=
  try_catch
    (if negb (Js.truthy_opt (read_API_KEY env)) then ret None
     else
       let! r := send (GenerateContent flash
                         (TranslateDetailsPrompt description features targetLanguage)) remote in
       parse_or r None)
    (ret None).

(** [response.text] is used as it is here, without [JSON.parse]. *)
Definition translateContent (env : process_env) (remote : reply (option string))
    (text : string) (targetLanguage : string) : M string :=
  try_catch
    (if negb (Js.truthy_opt (read_API_KEY env)) then ret text
     else
       let! response_text :=
         send (GenerateContent flash (TranslateContentPrompt text targetLanguage)) remote in
       match response_text with
       | Some t => if Js.truthy t then ret t else ret text
       | None => ret text
       end)
    (ret text).

Definition translateBatch (env : process_env) (remote : reply (response (list string)))
    (texts : list string) (targetLanguage : string) : M (list string) :=
  try_catch
    (if negb (Js.truthy_opt (read_API_KEY env)) then ret texts
     else
       let! r := send (GenerateContent flash (TranslateBatchPrompt texts targetLanguage)) remote in
       parse_or r texts)
    (ret texts).

Record LocationSuggestion : Type := {
  zip : string;
  city : string;
  country : string;
  region : string
}.

Definition lookupZipLocation (env : process_env)
    (remote : reply (response (list LocationSuggestion)))
    (zipCode : string) : M (list LocationSuggestion) :=
  try_catch
    (if negb (Js.truthy_opt (read_API_KEY env)) then ret []
     else
       let! r := send (GenerateContent flash (ZipPrompt zipCode)) remote in
       parse_or r [])
    (ret []).

Record ShippingEstimate : Type := {
  est_cost : Q;
  est_city : string;
  est_distance : string;
  est_currency : string;
  est_exchangeRate : Q
}.

Definition calculateShippingEstimate (env : process_env)
    (remote : reply (response (option ShippingEstimate)))
    (zipCode country : string) (city : option string) : M (option ShippingEstimate) :=
  try_catch
    (if negb (Js.truthy_opt (read_API_KEY env)) then ret None
     else
       let! r := send (GenerateContent flash (ShippingPrompt zipCode country city)) remote in
       parse_or r None)
    (ret None).

End Service.

(** ** Vocabulary of the properties of the service *)

Module ServiceSpec.

Import Service.

(** The functions written as "key check, one request, parse" share their
    behaviour. *)
Definition guarded_call {A} (env : process_env) (req : request)
    (remote : reply (response A)) (fallback : A) : M A :=
  try_catch
    (if negb (Js.truthy_opt (read_API_KEY env)) then ret fallback
     else let! r := send req remote in parse_or r fallback)
    (ret fallback).

(** A remote call with a JSON answer fails: it rejects, or its text does
    not parse. *)
Definition fails {A} (remote : reply (response A)) : Prop :=
  remote = Rejected ∨ remote = Resolved NotJson.

Definition apology_answer : answer := {| text := Some apology; image := None |}.
Definition missing_key_answer : answer :=
  {| text := Some missing_key_message; image := None |}.

(** The user's turn asks for the image tool with a prompt. *)
Definition asks_for_image (r : chat_result) : Prop :=
  ∃ call p, head (functionCalls r) = Some call
            ∧ fc_name call = "edit_image" ∧ fc_args call = Some p.

(** One of the chat calls the turn makes fails. *)
Definition chat_call_fails (remote : concierge_remote) : Prop :=
  user_turn remote = Rejected
  ∨ (∃ r, user_turn remote = Resolved r ∧ asks_for_image r ∧ tool_turn remote = Rejected).

(** A turn in which the model asks for an image, the image generation
    rejects, and the model then answers the report of that failure. *)
Definition image_failure_remote : concierge_remote :=
  {| user_turn :=
       Resolved {| functionCalls := [ {| fc_name := "edit_image"; fc_args := Some "add a cat" |} ];
                   result_text := None |};
     image_call := Rejected;
     tool_turn :=
       Resolved {| functionCalls := []; result_text := Some "I could not create that image." |} |}.

End ServiceSpec.

(** ** The language provider ([LanguageProvider]) *)

Module Provider.

(** The [code] of each entry of [LANGUAGES] in the navigation bar (the
    labels are for display only): the values [setLanguage] is called
    with. *)
Definition language_codes : list string :=
  [ "English"; "Italian"; "French"; "German"; "Spanish"; "Japanese" ].

(** The state of the component: three [useState] cells and the
    [missingTranslations] ref. *)
Record provider : Type := {
  language : string;
  cache : gmap string string;
  isTranslating : bool;
  missingTranslations : list string
}.

Definition initial : provider :=
  {| language := "English"; cache := ∅; isTranslating := false;
     missingTranslations := Js.StringSet.empty |}.

Definition getCacheKey (text lang : string) : string :=
  String.append lang (String.append "|" text).

(** [cache[key]] in a condition and as the value returned: the entry when
    it is there and truthy.  Every key has a [|] in it, so no property
    inherited from [Object.prototype] is ever hit. *)
Definition cached (c : gmap string string) (key : string) : option string :=
  match c !! key with
  | Some v => if Js.truthy v then Some v else None
  | None => None
  end.

Definition handleSetLanguage (lang : string) (s : provider) : provider :=
  if String.eqb lang (language s) then s
  else if negb (String.eqb lang "English") then
    {| language := lang; cache := cache s; isTranslating := true;
       missingTranslations := Js.StringSet.clear (missingTranslations s) |}
  else
    {| language := lang; cache := cache s; isTranslating := false;
       missingTranslations := missingTranslations s |}.

(** Brand/slogan protection. *)
Definition exempt (text : string) : bool :=
  Js.includes "quiet living" (Js.toLowerCase text) || String.eqb text "Aura".

(** [translate(text)]: the string returned and the state left (only the
    ref can change). *)
Definition translate (text : string) (s : provider) : string * provider :=
  if String.eqb (language s) "English" || negb (Js.truthy text) then (text, s)
  else if exempt text then (text, s)
  else
    match cached (cache s) (getCacheKey text (language s)) with
    | Some v => (v, s)
    | None =>
        (text,
         {| language := language s; cache := cache s;
            isTranslating := isTranslating s;
            missingTranslations := Js.StringSet.add text (missingTranslations s) |})
    end.

(** A batch request under way: what [processTranslations] holds in its
    closure across the [await]. *)
Record batch : Type := {
  needed : list string;
  target : string
}.

(** [Array.from(missingTranslations.current).filter(text => !cache[key])] *)
Definition neededTranslations (s : provider) : list string :=
  filter (λ text, cached (cache s) (getCacheKey text (language s)) = None)
         (Js.StringSet.to_array (missingTranslations s)).

(** [needed.forEach((text, index) => { if (results[index]) newCache[key] = results[index] })],
    from position [index] on. *)
Fixpoint mergeFrom (lang : string) (results : list string) (index : nat)
    (texts : list string) (newCache : gmap string string) : gmap string string :=
  match texts with
  | [] => newCache
  | text :: rest =>
      mergeFrom lang results (S index) rest
        match results !! index with
        | Some r => if Js.truthy r then <[getCacheKey text lang := r]> newCache else newCache
        | None => newCache
        end
  end.

Definition setIsTranslating (b : bool) (s : provider) : provider :=
  {| language := language s; cache := cache s; isTranslating := b;
     missingTranslations := missingTranslations s |}.

Definition setCache (f : gmap string string → gmap string string) (s : provider) : provider :=
  {| language := language s; cache := f (cache s); isTranslating := isTranslating s;
     missingTranslations := missingTranslations s |}.

(** [processTranslations] up to its [await]: nothing to ask for, or a
    batch sent. *)
Definition processTranslations_start (s : provider) : provider * option batch :=
  let texts := neededTranslations s in
  if (length texts =? 0)%nat then (setIsTranslating false s, None)
  else (s, Some {| needed := texts; target := language s |}).

(** [processTranslations] from its [await] on, given how
    [translateBatch(needed, language)] completed. *)
Definition processTranslations_resume (b : batch) (results : exc (list string))
    (s : provider) : provider :=
  setIsTranslating false
    match results with
    | Returned rs => setCache (mergeFrom (target b) rs 0 (needed b)) s
    | Thrown => s
    end.

(** *** The component over time *)

(** The provider with the batch requests whose answer is still awaited. *)
Record system : Type := {
  state : provider;
  inflight : list batch
}.

Definition start : system := {| state := initial; inflight := [] |}.

Inductive event : Type :=
| SetLanguage (lang : string)         (* a language button of the navigation bar *)
| Translate (text : string)           (* a call site rendering [text] *)
| TimerFires                          (* the 800ms timer of the effect elapses *)
| BatchCompletes (i : nat) (env : process_env)
    (remote : reply (response (list string))).
                                      (* the [i]th awaited batch completes *)

(** The effect arms its timer only while [isTranslating] holds; the
    navigation bar passes codes of [LANGUAGES] only. *)
Definition step (e : event) (sys : system) : option system :=
  match e with
  | SetLanguage lang =>
      if bool_decide (lang ∈ language_codes)
      then Some {| state := handleSetLanguage lang (state sys); inflight := inflight sys |}
      else None
  | Translate text =>
      Some {| state := snd (translate text (state sys)); inflight := inflight sys |}
  | TimerFires =>
      if isTranslating (state sys) then
        match processTranslations_start (state sys) with
        | (s', Some b) => Some {| state := s'; inflight := inflight sys ++ [b] |}
        | (s', None) => Some {| state := s'; inflight := inflight sys |}
        end
      else None
  | BatchCompletes i env remote =>
      match inflight sys !! i with
      | Some b =>
          let results := fst (Service.translateBatch env remote (needed b) (target b) []) in
          Some {| state := processTranslations_resume b results (state sys);
                  inflight := delete i (inflight sys) |}
      | None => None
      end
  end.

Fixpoint run (es : list event) (sys : system) : option system :=
  match es with
  | [] => Some sys
  | e :: rest =>
      match step e sys with
      | Some sys' => run rest sys'
      | None => None
      end
  end.

Inductive reachable : system → Prop :=
| reachable_start : reachable start
| reachable_step e sys sys' :
    reachable sys → step e sys = Some sys' → reachable sys'.

End Provider.

(** ** Vocabulary of the properties of the provider *)

Module ProviderSpec.

Import Provider.

(** No [|] in a string: true of every language code, so that a cache key
    splits into its language and its text in one way only. *)
Fixpoint bar_free (s : string) : bool :=
  match s with
  | EmptyString => true
  | String c rest => negb (Ascii.eqb c "|") && bar_free rest
  end.

(** A text [translate] can mark as pending: not empty, not exempt. *)
Definition translatable (text : string) : Prop :=
  Js.truthy text = true ∧ exempt text = false.

Definition foreign (lang : string) : Prop :=
  lang ∈ language_codes ∧ lang ≠ "English".

Definition entry_ok (key value : string) : Prop :=
  ∃ text lang, key = getCacheKey text lang ∧ foreign lang
               ∧ translatable text ∧ Js.truthy value = true.

Definition batch_ok (b : batch) : Prop :=
  foreign (target b) ∧ Forall translatable (needed b).

(** What holds of the provider at every moment. *)
Record invariant (sys : system) : Prop := {
  inv_language : language (state sys) ∈ language_codes;
  inv_translating : isTranslating (state sys) = true → language (state sys) ≠ "English";
  inv_missing : Forall translatable (missingTranslations (state sys));
  inv_nodup : NoDup (missingTranslations (state sys));
  inv_inflight : Forall batch_ok (inflight sys);
  inv_cache : ∀ key value, cache (state sys) !! key = Some value → entry_ok key value
}.

(** The state [translate] leaves when it registers [text]. *)
Definition mark_pending (text : string) (s : provider) : provider :=
  {| language := language s; cache := cache s; isTranslating := isTranslating s;
     missingTranslations := Js.StringSet.add text (missingTranslations s) |}.

(** A pass over call sites: [translate] called on each text in turn. *)
Definition translate_all (texts : list string) (s : provider) : provider :=
  foldl (λ s text, snd (translate text s)) s texts.

(** French is chosen, the navigation bar renders "Shop", the timer
    elapses: one batch is awaited. *)
Definition shop_in_french : list event :=
  [ SetLanguage "French"; Translate "Shop"; TimerFires ].

Definition awaiting_shop : system :=
  {| state := {| language := "French"; cache := ∅; isTranslating := true;
                 missingTranslations := ["Shop"] |};
     inflight := [ {| needed := ["Shop"]; target := "French" |} ] |}.

(** The same, and the batch is answered with "Boutique". *)
Definition shop_translated : list event :=
  shop_in_french
  ++ [ BatchCompletes 0 (EnvKey (Some "key")) (Resolved (Json ["Boutique"])) ].

Definition boutique : system :=
  {| state := {| language := "French"; cache := {[ "French|Shop" := "Boutique" ]};
                 isTranslating := false; missingTranslations := ["Shop"] |};
     inflight := [] |}.

End ProviderSpec.

(** ** The checkout ([Checkout.tsx]) *)

Module Checkout.

Import Service.

Record ShippingDetails : Type := {
  sd_city : string;
  sd_distance : string;
  sd_currency : option string;
  sd_exchangeRate : option Q
}.

(** The [useState] cells of the component and its debounce ref; the ref
    is the timer that is armed, given by the input its callback holds. *)
Record checkout : Type := {
  zipCode : string;
  suggestions : list LocationSuggestion;
  showSuggestions : bool;
  selectedCountry : string;
  shippingCost : Q;
  shippingDetails : option ShippingDetails;
  isShippingCalculated : bool;
  isCalculating : bool;
  isLookingUp : bool;
  debounceRef : option string
}.

Definition initial : checkout :=
  {| zipCode := ""; suggestions := []; showSuggestions := false;
     selectedCountry := ""; shippingCost := 0; shippingDetails := None;
     isShippingCalculated := false; isCalculating := false;
     isLookingUp := false; debounceRef := None |}.

(** [shippingDetails?.currency || 'USD'] *)
Definition activeCurrency (s : checkout) : string :=
  match shippingDetails s with
  | Some d =>
      match sd_currency d with
      | Some c => if Js.truthy c then c else "USD"
      | None => "USD"
      end
  | None => "USD"
  end.

(** [shippingDetails?.exchangeRate || 1] *)
Definition exchangeRate (s : checkout) : Q :=
  match shippingDetails s with
  | Some d =>
      match sd_exchangeRate d with
      | Some r => if Js.truthy_num r then r else 1
      | None => 1
      end
  | None => 1
  end.


Definition handleZipChange (val : string) (s : checkout) : checkout :=
  if (3 <=? String.length val)%nat then
    {| zipCode := val; suggestions := suggestions s;
       showSuggestions := showSuggestions s; selectedCountry := "";
       shippingCost := shippingCost s; shippingDetails := None;
       isShippingCalculated := false; isCalculating := isCalculating s;
       isLookingUp := true; debounceRef := Some val |}
  else
    {| zipCode := val; suggestions := [];
       showSuggestions := false; selectedCountry := "";
       shippingCost := shippingCost s; shippingDetails := None;
       isShippingCalculated := false; isCalculating := isCalculating s;
       isLookingUp := isLookingUp s; debounceRef := None |}.

(** The callback of the debounce timer from its [await] on. *)
Definition lookup_resume (results : exc (list LocationSuggestion)) (s : checkout)
    : exc checkout :=
  match results with
  | Returned rs =>
      Returned
        {| zipCode := zipCode s; suggestions := rs; showSuggestions := true;
           selectedCountry := selectedCountry s; shippingCost := shippingCost s;
           shippingDetails := shippingDetails s;
           isShippingCalculated := isShippingCalculated s;
           isCalculating := isCalculating s; isLookingUp := false;
           debounceRef := debounceRef s |}
  | Thrown => Thrown
  end.

(** The armed timer elapses and its lookup completes at once: the state
    left and the requests sent; [None] when no timer is armed. *)
Definition debounce_elapses (env : process_env)
    (remote : reply (response (list LocationSuggestion))) (s : checkout)
    : option (exc checkout * list request) :=
  match debounceRef s with
  | Some val =>
      let '(results, sent) := lookupZipLocation env remote val [] in
      Some (lookup_resume results
              {| zipCode := zipCode s; suggestions := suggestions s;
                 showSuggestions := showSuggestions s;
                 selectedCountry := selectedCountry s; shippingCost := shippingCost s;
                 shippingDetails := shippingDetails s;
                 isShippingCalculated := isShippingCalculated s;
                 isCalculating := isCalculating s; isLookingUp := isLookingUp s;
                 debounceRef := None |},
            sent)
  | None => None
  end.

(** [handleCalculateShipping] up to its [await]. *)
Definition handleCalculateShipping_start (s : checkout) : checkout :=
  {| zipCode := zipCode s; suggestions := suggestions s;
     showSuggestions := showSuggestions s; selectedCountry := selectedCountry s;
     shippingCost := shippingCost s; shippingDetails := None;
     isShippingCalculated := isShippingCalculated s; isCalculating := true;
     isLookingUp := isLookingUp s; debounceRef := debounceRef s |}.

Definition settle (cost : Q) (details : option ShippingDetails) (s : checkout) : checkout :=
  {| zipCode := zipCode s; suggestions := suggestions s;
     showSuggestions := showSuggestions s; selectedCountry := selectedCountry s;
     shippingCost := cost; shippingDetails := details;
     isShippingCalculated := true; isCalculating := false;
     isLookingUp := isLookingUp s; debounceRef := debounceRef s |}.

(** [handleCalculateShipping] from its [await] on, given how
    [calculateShippingEstimate] completed: the [try] with its two
    branches, the [catch], the [finally]. *)
Definition handleCalculateShipping_resume (result : exc (option ShippingEstimate))
    (s : checkout) : checkout :=
  match result with
  | Returned (Some r) =>
      settle (est_cost r)
        (Some {| sd_city := est_city r; sd_distance := est_distance r;
                 sd_currency := Some (est_currency r);
                 sd_exchangeRate := Some (est_exchangeRate r) |}) s
  | Returned None => settle 25 (shippingDetails s) s
  | Thrown => settle 25 (shippingDetails s) s
  end.

Definition selectLocation (loc : LocationSuggestion) (s : checkout) : checkout :=
  handleCalculateShipping_start
    {| zipCode := zip loc; suggestions := []; showSuggestions := false;
       selectedCountry := country loc; shippingCost := shippingCost s;
       shippingDetails := shippingDetails s;
       isShippingCalculated := isShippingCalculated s;
       isCalculating := isCalculating s; isLookingUp := isLookingUp s;
       debounceRef := debounceRef s |}.

(** What can happen to the component while a shipping estimate is
    awaited. *)
Inductive event : Type :=
| ZipChange (val : string)
| LookupCompletes (results : list LocationSuggestion)
| SelectLocation (loc : LocationSuggestion)
| EstimateCompletes (result : exc (option ShippingEstimate)).

Definition step (e : event) (s : checkout) : checkout :=
  match e with
  | ZipChange val => handleZipChange val s
  | LookupCompletes results =>
      match lookup_resume (Returned results) s with
      | Returned s' => s'
      | Thrown => s
      end
  | SelectLocation loc => selectLocation loc s
  | EstimateCompletes result => handleCalculateShipping_resume result s
  end.


Definition run (evs : list event) (s : checkout) : checkout :=
  foldl (λ s e, step e s) s evs.

(** The estimate is not obtained: [calculateShippingEstimate] returns null
    or throws. *)
Definition estimate_fails (result : exc (option ShippingEstimate)) : Prop :=
  result = Returned None ∨ result = Thrown.

(** Six locations, as the model may answer for one postal code. *)
Definition six_locations : list LocationSuggestion :=
  map (λ c, {| zip := "981"; city := c; country := "Country"; region := "Region" |})
      [ "A"; "B"; "C"; "D"; "E"; "F" ].

End Checkout.

(** ** What the checkout displays ([Checkout.tsx], the render) *)

Module CheckoutView.

Import Service Checkout.

(** [items.reduce((sum, item) => sum + item.price, 0)] *)
Definition subtotal (items : list Product) : Q :=
  foldl (λ sum item, (sum + p_price item)%Q) 0%Q items.

(** [subtotal + (isShippingCalculated ? shippingCost : 0)] *)
Definition totalUSD (items : list Product) (s : checkout) : Q :=
  (subtotal items + (if isShippingCalculated s then shippingCost s else 0))%Q.

(** The shipping line: a fixed text, or a price handed to [formatPrice]. *)
Inductive shipping_line : Type :=
| Calculating
| Free
| Price (amountInUSD : Q)
| PendingAddress.

Definition shippingLine (s : checkout) : shipping_line :=
  if isCalculating s then Calculating
  else if isShippingCalculated s then
    (if Qeq_bool (shippingCost s) 0 then Free else Price (shippingCost s))
  else PendingAddress.

(** [showSuggestions && suggestions.length > 0]: the dropdown is rendered. *)
Definition dropdownShown (s : checkout) : bool :=
  showSuggestions s && (0 <? length (suggestions s))%nat.

(** [zipCode.length > 4 && !isLookingUp && suggestions.length === 0 && !selectedCountry]:
    the line "No matches found. Try specific zip." is rendered. *)
Definition noMatchesShown (s : checkout) : bool :=
  (4 <? String.length (zipCode s))%nat && negb (isLookingUp s)
  && (length (suggestions s) =? 0)%nat && negb (Js.truthy (selectedCountry s)).

(** Events that leave the spinner of the postal-code field alone: an
    input too short for a lookup, a selection, an estimate completing. *)
Definition keeps_spinner (e : event) : bool :=
  match e with
  | ZipChange val => (String.length val <? 3)%nat
  | LookupCompletes _ => false
  | SelectLocation _ => true
  | EstimateCompletes _ => true
  end.

End CheckoutView.

(** ** The cart ([App]) *)

Module Cart.

(** The two cells of [App] the cart functions touch. *)
Record cart : Type := {
  cartItems : list Product;
  isCartOpen : bool
}.

Definition addToCart (product : Product) (a : cart) : cart :=
  {| cartItems := cartItems a ++ [product]; isCartOpen := true |}.

(** [newItems.splice(index, 1)] on a copy; the drawer passes the position
    of an item of the list, a natural number. *)
Definition removeFromCart (index : nat) (a : cart) : cart :=
  {| cartItems := delete index (cartItems a); isCartOpen := isCartOpen a |}.

(** [cartCount={cartItems.length}] *)
Definition cartCount (a : cart) : nat := length (cartItems a).

End Cart.

(** ** The loading overlay ([TranslationLoader.tsx]) *)

Module Loader.

(** The timer the effect has armed: 50ms to fade in, 500ms to unmount. *)
Inductive timer : Type :=
| FadeIn
| Unmount.

Record loader : Type := {
  mounted : bool;
  visible : bool;
  armed : option timer
}.

Definition initial : loader :=
  {| mounted := false; visible := false; armed := None |}.

(** The effect for a value of [isTranslating]; the cleanup of the previous
    run has cleared its timer. *)
Definition effect (isTranslating : bool) (s : loader) : loader :=
  if isTranslating then
    {| mounted := true; visible := visible s; armed := Some FadeIn |}
  else
    {| mounted := mounted s; visible := false; armed := Some Unmount |}.

(** The armed timer elapses. *)
Definition elapse (s : loader) : option loader :=
  match armed s with
  | Some FadeIn => Some {| mounted := mounted s; visible := true; armed := None |}
  | Some Unmount => Some {| mounted := false; visible := visible s; armed := None |}
  | None => None
  end.

(** [if (!mounted) return null]: the overlay is in the document. *)
Definition rendered (s : loader) : bool := mounted s.

Inductive event : Type :=
| IsTranslating (b : bool)
| Elapses.

Definition step (e : event) (s : loader) : option loader :=
  match e with
  | IsTranslating b => Some (effect b s)
  | Elapses => elapse s
  end.

Inductive reachable : loader → Prop :=
| reachable_initial : reachable initial
| reachable_step e s s' : reachable s → step e s = Some s' → reachable s'.

(** What holds of the overlay and its timer at every moment. *)
Definition loader_invariant (s : loader) : Prop :=
  (visible s = true → mounted s = true)
  ∧ (armed s = Some FadeIn → mounted s = true)
  ∧ (armed s = Some Unmount → visible s = false).

(** The effect run for each value in turn. *)
Definition effects (bs : list bool) (s : loader) : loader :=
  foldl (λ s b, effect b s) s bs.

End Loader.

(** ** The product page ([ProductDetail.tsx]) *)

Module Detail.

Import Service.

Section Catalog.

(** The [id] of a product and the catalog [PRODUCTS] ([types.ts] and
    [constants.ts]) are not among the sources. *)
Variable product_id : Product → string.
Variable PRODUCTS : list Product.

Definition otherProducts (product : Product) : list Product :=
  filter (λ p, product_id p ≠ product_id product) PRODUCTS.

Definition relatedProducts (product : Product) : list Product :=
  let sameCategory :=
    filter (λ p, p_category p = p_category product) (otherProducts product) in
  let remaining :=
    filter (λ p, p_category p ≠ p_category product) (otherProducts product) in
  take 3 (sameCategory ++ remaining).

End Catalog.

Record detail : Type := {
  selectedSize : option string;
  translatedDesc : option string;
  translatedFeatures : option (list string);
  isTranslating : bool;
  showTranslation : bool
}.

Definition initial : detail :=
  {| selectedSize := None; translatedDesc := None; translatedFeatures := None;
     isTranslating := false; showTranslation := false |}.

(** The effect on a change of product. *)
Definition reset (s : detail) : detail := initial.

Definition setShowTranslation (b : bool) (s : detail) : detail :=
  {| selectedSize := selectedSize s; translatedDesc := translatedDesc s;
     translatedFeatures := translatedFeatures s; isTranslating := isTranslating s;
     showTranslation := b |}.

Definition setIsTranslating (b : bool) (s : detail) : detail :=
  {| selectedSize := selectedSize s; translatedDesc := translatedDesc s;
     translatedFeatures := translatedFeatures s; isTranslating := b;
     showTranslation := showTranslation s |}.

(** [translatedDesc && translatedFeatures]: an array is truthy even when
    empty, a string only when non-empty. *)
Definition stored (s : detail) : bool :=
  Js.truthy_opt (translatedDesc s) && bool_decide (is_Some (translatedFeatures s)).

(** [product.longDescription || product.description] *)
Definition original (product : Product) : string :=
  match p_longDescription product with
  | Some d => if Js.truthy d then d else p_description product
  | None => p_description product
  end.

(** [handleTranslate] up to its [await]: the state left, and whether the
    request is made. *)
Definition handleTranslate_start (s : detail) : detail * bool :=
  if showTranslation s then (setShowTranslation false s, false)
  else if stored s then (setShowTranslation true s, false)
  else (setIsTranslating true s, true).

(** [handleTranslate] from its [await] on; it has no [try], so a rejection
    would leave the rest undone. *)
Definition handleTranslate_resume (result : exc (option translatedDetails))
    (s : detail) : exc detail :=
  match result with
  | Returned (Some r) =>
      Returned
        {| selectedSize := selectedSize s;
           translatedDesc := Some (translatedDescription r);
           translatedFeatures := Some (Service.translatedFeatures r);
           isTranslating := false; showTranslation := true |}
  | Returned None => Returned (setIsTranslating false s)
  | Thrown => Thrown
  end.

(** A click on the button whose request, if any, completes before anything
    else happens: the state left and the requests sent. *)
Definition handleTranslate (env : process_env)
    (remote : reply (response (option translatedDetails)))
    (product : Product) (s : detail) : exc detail * list request :=
  match handleTranslate_start s with
  | (s1, false) => (Returned s1, [])
  | (s1, true) =>
      let '(result, sent) :=
        translateProductDetails env remote (original product) (p_features product)
          "Italian" [] in
      (handleTranslate_resume result s1, sent)
  end.

(** The paragraph: [showTranslation ? translatedDesc : original]. *)
Definition shownDescription (product : Product) (s : detail) : option string :=
  if showTranslation s then translatedDesc s else Some (original product).

(** [showTranslation && translatedFeatures ? translatedFeatures : product.features] *)
Definition currentFeatures (product : Product) (s : detail) : list string :=
  if showTranslation s then
    match translatedFeatures s with
    | Some fs => fs
    | None => p_features product
    end
  else p_features product.

(** What happens to the page, with the request cut at its [await]; the
    button is disabled while [isTranslating] holds. *)
Inductive event : Type :=
| Click
| Completes (result : option translatedDetails)
| ProductChanges
| SelectSize (size : string).

Definition step (e : event) (s : detail) : option detail :=
  match e with
  | Click => if isTranslating s then None else Some (fst (handleTranslate_start s))
  | Completes result =>
      match handleTranslate_resume (Returned result) s with
      | Returned s' => Some s'
      | Thrown => None
      end
  | ProductChanges => Some (reset s)
  | SelectSize size =>
      Some {| selectedSize := Some size; translatedDesc := translatedDesc s;
              translatedFeatures := translatedFeatures s;
              isTranslating := isTranslating s; showTranslation := showTranslation s |}
  end.

Inductive reachable : detail → Prop :=
| reachable_initial : reachable initial
| reachable_step e s s' : reachable s → step e s = Some s' → reachable s'.

(** Clicks in a row, each with its own outcome of the remote call: the
    state left and all the requests sent. *)
Fixpoint clicks (outcomes : list (process_env * reply (response (option translatedDetails))))
    (product : Product) (s : detail) : exc detail * list request :=
  match outcomes with
  | [] => (Returned s, [])
  | (env, remote) :: rest =>
      match handleTranslate env remote product s with
      | (Returned s', sent) =>
          let '(final, sent') := clicks rest product s' in (final, sent ++ sent')
      | (Thrown, sent) => (Thrown, sent)
      end
  end.

End Detail.

(** ** The requests of one concierge turn *)

Module ConciergeSpec.

Import Service.

(** The image sent along, when there is one. *)
Definition image_input (imageBase64 : option string) : option string :=
  if Js.truthy_opt imageBase64 then imageBase64 else None.

(** [chat.sendMessage({ message: messageParts })] for the user's turn. *)
Definition user_request (history : list (string * string))
    (activeProduct : option Product) (newMessage : string)
    (imageBase64 : option string) : request :=
  ChatSendMessage flash history activeProduct
    (UserTurn newMessage (image_input imageBase64)).

(** The request of [generateImageWithNanoBanana]. *)
Definition image_request (prompt : string) (imageBase64 : option string) : request :=
  GenerateContent flash_image (ImagePrompt prompt (image_input imageBase64)).

(** The [functionResponse] sent back to the model with the tool's result. *)
Definition report_request (history : list (string * string))
    (activeProduct : option Product) (result : string) : request :=
  ChatSendMessage flash history activeProduct (FunctionResponse "edit_image" result).

(** What the image generation hands back for the outcome of its call. *)
Definition generated (remote : concierge_remote) : option string :=
  match image_call remote with
  | Rejected => None
  | Resolved parts => first_inline_data parts
  end.

(** The prompt of the image tool, when the first function call of the
    user's turn is [edit_image] with arguments. *)
Definition requested_prompt (remote : concierge_remote) : option string :=
  match user_turn remote with
  | Rejected => None
  | Resolved r =>
      match head (functionCalls r) with
      | Some call =>
          if String.eqb (fc_name call) "edit_image" then fc_args call else None
      | None => None
      end
  end.

End ConciergeSpec.

(** ** Values used as examples *)

Module Examples.

Import Service.

(** A turn in which the model asks for an image and the image generation
    returns data in its second part. *)
Definition image_success_remote : concierge_remote :=
  {| user_turn :=
       Resolved {| functionCalls := [ {| fc_name := "edit_image"; fc_args := Some "add a cat" |} ];
                   result_text := None |};
     image_call := Resolved [None; Some "aGVsbG8="];
     tool_turn :=
       Resolved {| functionCalls := []; result_text := Some "Here it is." |} |}.

Definition lamp : Product :=
  {| p_name := "Lamp"; p_price := 120; p_tagline := "Light"; p_category := "Home";
     p_description := "A lamp."; p_longDescription := None; p_features := ["Warm"] |}.

Definition band : Product :=
  {| p_name := "Band"; p_price := 80; p_tagline := "Wear"; p_category := "Wearable";
     p_description := "A band."; p_longDescription := Some "A woven band.";
     p_features := ["Soft"] |}.

Definition speaker : Product :=
  {| p_name := "Speaker"; p_price := 200; p_tagline := "Sound"; p_category := "Home";
     p_description := "A speaker."; p_longDescription := None; p_features := ["Clear"] |}.

Definition lampada : translatedDetails :=
  {| translatedDescription := "Una lampada."; translatedFeatures := ["Caldo"] |}.

Definition seattle : LocationSuggestion :=
  {| zip := "98121"; city := "Seattle"; country := "USA"; region := "WA" |}.



End Examples.

(** * Properties *)

(** ** The service functions *)

Section ServiceFacts.

Import Service ServiceSpec.

Lemma try_catch_returns {A} (body handler : M A) log :
  (∀ log', ∃ a, handler log' = (Returned a, log')) →
  ∃ a log', try_catch body handler log = (Returned a, log').
Proof.
  intros Hh. unfold try_catch.
  destruct (body log) as [[a|] log']; [by eauto|].
  destruct (Hh log') as [a Ha]. eauto.
Qed.

Lemma try_catch_ret {A} (a : A) handler log :
  try_catch (ret a) handler log = (Returned a, log).
Proof. reflexivity. Qed.

(** A rejected call is caught by the enclosing [try]. *)
Lemma try_catch_send_rejected {A B} req (k : A → M B) (fallback : B) log :
  try_catch (let! r := send req Rejected in k r) (ret fallback) log
  = (Returned fallback, log ++ [req]).
Proof. reflexivity. Qed.

Lemma guarded_call_cases {A} env req (remote : reply (response A)) fallback log :
  guarded_call env req remote fallback log =
    if negb (Js.truthy_opt (read_API_KEY env)) then (Returned fallback, log)
    else match remote with
         | Resolved (Json v) => (Returned v, log ++ [req])
         | _ => (Returned fallback, log ++ [req])
         end.
Proof.
  unfold guarded_call, try_catch, bind.
  destruct (negb _); [done|].
  by destruct remote as [|[| |v]].
Qed.

Lemma translateBatch_guarded env remote texts lang :
  translateBatch env remote texts lang
  = guarded_call env (GenerateContent flash (TranslateBatchPrompt texts lang)) remote texts.
Proof. reflexivity. Qed.

Lemma lookupZipLocation_guarded env remote zipCode :
  lookupZipLocation env remote zipCode
  = guarded_call env (GenerateContent flash (ZipPrompt zipCode)) remote [].
Proof. reflexivity. Qed.

Lemma calculateShippingEstimate_guarded env remote zipCode country city :
  calculateShippingEstimate env remote zipCode country city
  = guarded_call env (GenerateContent flash (ShippingPrompt zipCode country city)) remote None.
Proof. reflexivity. Qed.

Lemma translateProductDetails_guarded env remote description features lang :
  translateProductDetails env remote description features lang
  = guarded_call env
      (GenerateContent flash (TranslateDetailsPrompt description features lang)) remote None.
Proof. reflexivity. Qed.

Lemma guarded_call_fails {A} env req (remote : reply (response A)) fallback log :
  fails remote → fst (guarded_call env req remote fallback log) = Returned fallback.
Proof.
  intros [-> | ->]; rewrite guarded_call_cases; by destruct (negb _).
Qed.

Lemma guarded_call_total {A} env req (remote : reply (response A)) fallback log :
  ∃ a log', guarded_call env req remote fallback log = (Returned a, log').
Proof.
  rewrite guarded_call_cases. destruct (negb _); [by eauto|].
  destruct remote as [|[| |v]]; eauto.
Qed.

Lemma translateContent_total env remote text lang log :
  ∃ a log', translateContent env remote text lang log = (Returned a, log').
Proof.
  unfold translateContent. apply try_catch_returns.
  intros log'. by exists text.
Qed.

Lemma sendMessageToGemini_total env remote history newMessage activeProduct imageBase64 log :
  ∃ a log',
    sendMessageToGemini env remote history newMessage activeProduct imageBase64 log
    = (Returned a, log').
Proof.
  unfold sendMessageToGemini. apply try_catch_returns.
  intros log'. eexists. reflexivity.
Qed.

Lemma generateImage_total apiKey prompt input remote log :
  ∃ img log', generateImageWithNanoBanana apiKey prompt input remote log
              = (Returned img, log').
Proof.
  unfold generateImageWithNanoBanana. apply try_catch_returns.
  intros log'. by exists None.
Qed.

Lemma sendMessageToGemini_chat_failure env remote history newMessage activeProduct
    imageBase64 log :
  Js.truthy_opt (read_API_KEY env) = true →
  chat_call_fails remote →
  fst (sendMessageToGemini env remote history newMessage activeProduct imageBase64 log)
  = Returned apology_answer.
Proof.
  intros Hkey Hfail. unfold sendMessageToGemini.
  destruct (read_API_KEY env) as [apiKey|]; [|done]. simpl in Hkey. rewrite Hkey. simpl.
  destruct Hfail as [Hu | (r & Hu & (call & p & Hhead & Hname & Hargs) & Ht)].
  - unfold try_catch, bind. by rewrite Hu.
  - unfold try_catch, bind. rewrite Hu. simpl. rewrite Hhead, Hname, Hargs. simpl.
    destruct (generateImage_total apiKey p imageBase64 (image_call remote)
                (log ++ [ChatSendMessage flash history activeProduct
                           (UserTurn newMessage
                              (if Js.truthy_opt imageBase64 then imageBase64 else None))]))
      as (img & log' & ->).
    rewrite Ht. by destruct (Js.truthy_opt img).
Qed.

(** C9: when the API key is absent from the process configuration
    (reading it throws, it is undefined, or it is empty), every service
    function returns its fallback and sends no request: the log of requests
    is left as it was.  [sendMessageToGemini] answers with the message that
    names the missing key, [translateBatch] returns its input texts,
    [lookupZipLocation] the empty list, [calculateShippingEstimate] null
    (and so does [translateProductDetails]; [translateContent] returns its
    input). *)
Theorem missing_key_fallbacks (env : process_env) (log : list request) :
  Js.truthy_opt (read_API_KEY env) = false →
  (∀ remote history newMessage activeProduct imageBase64,
      sendMessageToGemini env remote history newMessage activeProduct imageBase64 log
      = (Returned missing_key_answer, log))
  ∧ Js.includes "Missing API Key" missing_key_message = true
  ∧ (∀ remote texts lang,
        translateBatch env remote texts lang log = (Returned texts, log))
  ∧ (∀ remote zipCode,
        lookupZipLocation env remote zipCode log = (Returned [], log))
  ∧ (∀ remote zipCode country city,
        calculateShippingEstimate env remote zipCode country city log = (Returned None, log))
  ∧ (∀ remote description features lang,
        translateProductDetails env remote description features lang log = (Returned None, log))
  ∧ (∀ remote text lang,
        translateContent env remote text lang log = (Returned text, log)).
Proof.
  intros Hkey. repeat split; intros.
  - unfold sendMessageToGemini.
    destruct (read_API_KEY env) as [k|]; simpl in *; [by rewrite Hkey | done].
  - by rewrite translateBatch_guarded, guarded_call_cases, Hkey.
  - by rewrite lookupZipLocation_guarded, guarded_call_cases, Hkey.
  - by rewrite calculateShippingEstimate_guarded, guarded_call_cases, Hkey.
  - by rewrite translateProductDetails_guarded, guarded_call_cases, Hkey.
  - unfold translateContent. by rewrite Hkey.
Qed.

Lemma missing_key_fallbacks_witness :
  Service.translateBatch (EnvKey None) Rejected ["Shop"; "About"] "French" []
  = (Returned ["Shop"; "About"], []).
Proof.
  apply (missing_key_fallbacks (EnvKey None) []); reflexivity.
Defined.

(** The image generation fails: the failure is caught inside
    [generateImageWithNanoBanana], reported to the model, and the model's
    reply is the answer. *)
Lemma sendMessageToGemini_image_failure env remote history newMessage activeProduct
    imageBase64 log r call p tr :
  Js.truthy_opt (read_API_KEY env) = true →
  user_turn remote = Resolved r →
  head (functionCalls r) = Some call →
  fc_name call = "edit_image" →
  fc_args call = Some p →
  image_call remote = Rejected →
  tool_turn remote = Resolved tr →
  sendMessageToGemini env remote history newMessage activeProduct imageBase64 log
  = (Returned {| text := result_text tr; image := None |},
     log ++ [ ConciergeSpec.user_request history activeProduct newMessage imageBase64;
              ConciergeSpec.image_request p imageBase64;
              ChatSendMessage flash history activeProduct
                (FunctionResponse "edit_image" "Failed to generate image.") ]).
Proof.
  intros Hkey Hu Hhead Hname Hargs Hi Ht. unfold sendMessageToGemini.
  destruct (read_API_KEY env) as [apiKey|]; [|done]. simpl in Hkey. rewrite Hkey. simpl.
  unfold generateImageWithNanoBanana, try_catch, bind, send, ret.
  rewrite Hu. simpl. rewrite Hhead, Hname, Hargs. simpl. rewrite Hi. simpl.
  rewrite Ht. by rewrite <- !app_assoc.
Qed.

(** C8, as the code has it: no exported remote-call function ever throws, whatever the
    process configuration and whatever the remote calls do.  When one of
    its chat calls fails, [sendMessageToGemini] returns the static apology;
    when its remote call rejects or its JSON does not parse,
    [translateBatch] returns its input texts and [lookupZipLocation] the
    empty list.  When the image generation fails, the failure is caught
    inside [generateImageWithNanoBanana], the model is sent the report
    'Failed to generate image.' after the user's turn and the image
    request, and [sendMessageToGemini] returns the model's reply to that
    report, without an image. *)
Theorem remote_failures_are_caught (env : process_env) (log : list request) :
  (∀ remote history newMessage activeProduct imageBase64,
      ∃ a log', sendMessageToGemini env remote history newMessage activeProduct imageBase64 log
                = (Returned a, log'))
  ∧ (∀ remote texts lang, ∃ a log', translateBatch env remote texts lang log = (Returned a, log'))
  ∧ (∀ remote zipCode, ∃ a log', lookupZipLocation env remote zipCode log = (Returned a, log'))
  ∧ (∀ remote zipCode country city,
        ∃ a log', calculateShippingEstimate env remote zipCode country city log = (Returned a, log'))
  ∧ (∀ remote description features lang,
        ∃ a log', translateProductDetails env remote description features lang log
                  = (Returned a, log'))
  ∧ (∀ remote text lang, ∃ a log', translateContent env remote text lang log = (Returned a, log'))
  ∧ (∀ remote history newMessage activeProduct imageBase64,
        Js.truthy_opt (read_API_KEY env) = true →
        chat_call_fails remote →
        fst (sendMessageToGemini env remote history newMessage activeProduct imageBase64 log)
        = Returned apology_answer)
  ∧ (∀ remote texts lang,
        fails remote → fst (translateBatch env remote texts lang log) = Returned texts)
  ∧ (∀ remote zipCode,
        fails remote → fst (lookupZipLocation env remote zipCode log) = Returned [])
  ∧ (∀ remote history newMessage activeProduct imageBase64 r call p reported,
        Js.truthy_opt (read_API_KEY env) = true →
        user_turn remote = Resolved r →
        head (functionCalls r) = Some call →
        fc_name call = "edit_image" →
        fc_args call = Some p →
        image_call remote = Rejected →
        tool_turn remote = Resolved reported →
        sendMessageToGemini env remote history newMessage activeProduct imageBase64 log
        = (Returned {| text := result_text reported; image := None |},
           log ++ [ ConciergeSpec.user_request history activeProduct newMessage imageBase64;
                    ConciergeSpec.image_request p imageBase64;
                    ChatSendMessage flash history activeProduct
                      (FunctionResponse "edit_image" "Failed to generate image.") ])).
Proof.
  repeat split; intros.
  - apply sendMessageToGemini_total.
  - rewrite translateBatch_guarded. apply guarded_call_total.
  - rewrite lookupZipLocation_guarded. apply guarded_call_total.
  - rewrite calculateShippingEstimate_guarded. apply guarded_call_total.
  - rewrite translateProductDetails_guarded. apply guarded_call_total.
  - apply translateContent_total.
  - by apply sendMessageToGemini_chat_failure.
  - rewrite translateBatch_guarded. by apply guarded_call_fails.
  - rewrite lookupZipLocation_guarded. by apply guarded_call_fails.
  - by eapply sendMessageToGemini_image_failure.
Qed.

Lemma remote_failures_are_caught_witness :
  fst (Service.sendMessageToGemini (EnvKey (Some "key"))
         {| user_turn := Rejected; image_call := Rejected; tool_turn := Rejected |}
         [] "Hello" None None [])
  = Returned apology_answer
  ∧ fst (Service.translateBatch (EnvKey (Some "key")) (Resolved NotJson) ["Shop"] "French" [])
    = Returned ["Shop"]
  ∧ fst (Service.lookupZipLocation (EnvKey (Some "key")) Rejected "98121" []) = Returned []
  ∧ Service.sendMessageToGemini (EnvKey (Some "key")) image_failure_remote
      [] "add a cat" None None []
    = (Returned {| text := Some "I could not create that image."; image := None |},
       [ ChatSendMessage flash [] None (UserTurn "add a cat" None);
         GenerateContent flash_image (ImagePrompt "add a cat" None);
         ChatSendMessage flash [] None
           (FunctionResponse "edit_image" "Failed to generate image.") ]).
Proof.
  destruct (remote_failures_are_caught (EnvKey (Some "key")) [])
    as (_ & _ & _ & _ & _ & _ & Hchat & Hbatch & Hzip & Himage).
  split; [|split; [|split]].
  - apply Hchat; [reflexivity | left; reflexivity].
  - apply Hbatch. right; reflexivity.
  - apply Hzip. left; reflexivity.
  - apply (Himage image_failure_remote [] "add a cat" None None
             {| functionCalls := [ {| fc_name := "edit_image"; fc_args := Some "add a cat" |} ];
                result_text := None |}
             {| fc_name := "edit_image"; fc_args := Some "add a cat" |}
             "add a cat"
             {| functionCalls := []; result_text := Some "I could not create that image." |});
      reflexivity.
Defined.

(** C8 as it is stated fails: a rejected image generation is a failing
    remote call, the request was sent, and the answer is the model's reply
    to the report of the failure, not the static apology. *)
Lemma image_failure_is_not_answered_by_the_apology :
  let run :=
    Service.sendMessageToGemini (EnvKey (Some "key")) image_failure_remote
      [] "add a cat" None None [] in
  image_call image_failure_remote = Rejected
  ∧ GenerateContent flash_image (ImagePrompt "add a cat" None) ∈ snd run
  ∧ fst run = Returned {| text := Some "I could not create that image."; image := None |}
  ∧ fst run ≠ Returned apology_answer.
Proof.
  repeat split.
  - vm_compute. set_solver.
  - discriminate.
Qed.

End ServiceFacts.


(** ** The language provider *)

Section ProviderFacts.

Import Provider ProviderSpec.

Lemma eqb_false_ne (a b : string) : String.eqb a b = false → a ≠ b.
Proof. intros H. by apply String.eqb_neq. Qed.

Lemma truthy_nonempty (s : string) : Js.truthy s = true ↔ s ≠ "".
Proof.
  unfold Js.truthy. rewrite negb_true_iff. apply String.eqb_neq.
Qed.

(** *** The pending set *)

Lemma add_elem (x y : string) (l : list string) :
  y ∈ Js.StringSet.add x l ↔ y = x ∨ y ∈ l.
Proof.
  unfold Js.StringSet.add. case_bool_decide as Hin.
  - split; [by right | intros [-> | ?]; done].
  - rewrite elem_of_app, list_elem_of_singleton. tauto.
Qed.

Lemma add_NoDup (x : string) (l : list string) :
  NoDup l → NoDup (Js.StringSet.add x l).
Proof.
  intros Hl. unfold Js.StringSet.add. case_bool_decide as Hin; [done|].
  apply NoDup_app. split; [done|]. split.
  - intros y Hy Hx%list_elem_of_singleton. by subst.
  - apply NoDup_singleton.
Qed.

Lemma add_idempotent (x : string) (l : list string) :
  Js.StringSet.add x (Js.StringSet.add x l) = Js.StringSet.add x l.
Proof.
  unfold Js.StringSet.add at 1.
  rewrite bool_decide_eq_true_2; [done|]. apply add_elem. by left.
Qed.

Lemma NoDup_count_one (x : string) (l : list string) :
  NoDup l → x ∈ l → count_occ string_dec l x = 1%nat.
Proof.
  intros Hl Hx. apply (proj1 (NoDup_count_occ' string_dec l)).
  - by apply NoDup_ListNoDup.
  - by apply list_elem_of_In.
Qed.

(** *** Cache keys *)

Lemma getCacheKey_inj (t1 t2 l1 l2 : string) :
  bar_free l1 = true → bar_free l2 = true →
  getCacheKey t1 l1 = getCacheKey t2 l2 → l1 = l2 ∧ t1 = t2.
Proof.
  unfold getCacheKey. revert l2.
  induction l1 as [|c1 l1 IH]; intros [|c2 l2]; simpl; intros H1 H2 Hk.
  - by inversion Hk.
  - inversion Hk; subst. by rewrite Ascii.eqb_refl in H2.
  - inversion Hk; subst. by rewrite Ascii.eqb_refl in H1.
  - apply andb_true_iff in H1 as [_ H1]. apply andb_true_iff in H2 as [_ H2].
    inversion Hk; subst.
    destruct (IH l2 H1 H2) as [-> ->]; done.
Qed.

Lemma language_codes_bar_free (lang : string) :
  lang ∈ language_codes → bar_free lang = true.
Proof.
  unfold language_codes. rewrite !elem_of_cons, elem_of_nil.
  intros H. repeat destruct H as [-> | H]; done.
Qed.

Lemma getCacheKey_inj_codes (t1 t2 l1 l2 : string) :
  l1 ∈ language_codes → l2 ∈ language_codes →
  getCacheKey t1 l1 = getCacheKey t2 l2 → l1 = l2 ∧ t1 = t2.
Proof.
  intros H1 H2. apply getCacheKey_inj; by apply language_codes_bar_free.
Qed.

(** *** [translate], case by case *)

Lemma cached_Some (c : gmap string string) (key v : string) :
  cached c key = Some v ↔ c !! key = Some v ∧ Js.truthy v = true.
Proof.
  unfold cached. destruct (c !! key) as [w|].
  - destruct (Js.truthy w) eqn:Hw; split.
    + by intros [= <-].
    + by intros [[= <-] _].
    + done.
    + intros [[= <-] Hv]. congruence.
  - split; [done | by intros [? _]].
Qed.

Lemma cached_None (c : gmap string string) (key : string) :
  c !! key = None → cached c key = None.
Proof. unfold cached. by intros ->. Qed.

Lemma translate_cases (text : string) (s : provider) :
  (translate text s = (text, s)
   ∧ (language s = "English" ∨ text = "" ∨ exempt text = true))
  ∨ (∃ v, translate text s = (v, s)
          ∧ language s ≠ "English" ∧ translatable text
          ∧ cached (cache s) (getCacheKey text (language s)) = Some v)
  ∨ (translate text s = (text, mark_pending text s)
     ∧ language s ≠ "English" ∧ translatable text
     ∧ cached (cache s) (getCacheKey text (language s)) = None).
Proof.
  unfold translate, translatable.
  destruct (String.eqb (language s) "English") eqn:Hlang; simpl.
  { left. split; [done|]. left. by apply String.eqb_eq. }
  apply eqb_false_ne in Hlang.
  destruct (Js.truthy text) eqn:Htext; simpl.
  2:{ left. split; [done|]. right; left.
      unfold Js.truthy in Htext. apply negb_false_iff in Htext.
      by apply String.eqb_eq. }
  destruct (exempt text) eqn:Hex.
  { left. split; [done|]. by right; right. }
  destruct (cached _ _) as [v|] eqn:Hc.
  - right; left. by exists v.
  - by right; right.
Qed.

Lemma translate_frame (text : string) (s : provider) :
  let s' := snd (translate text s) in
  language s' = language s ∧ cache s' = cache s ∧ isTranslating s' = isTranslating s.
Proof.
  destruct (translate_cases text s) as [[-> _] | [(v & -> & _) | [-> _]]]; done.
Qed.

Lemma translate_missing (text : string) (s : provider) :
  let s' := snd (translate text s) in
  missingTranslations s' = missingTranslations s
  ∨ (missingTranslations s' = Js.StringSet.add text (missingTranslations s)
     ∧ translatable text).
Proof.
  destruct (translate_cases text s) as [[-> _] | [(v & -> & _) | [-> (_ & Ht & _)]]];
    simpl; auto.
Qed.

(** *** The merge of a batch into the cache *)

Lemma mergeFrom_entries lang results texts :
  ∀ index newCache key value,
    mergeFrom lang results index texts newCache !! key = Some value →
    newCache !! key = Some value
    ∨ (∃ text, text ∈ texts ∧ key = getCacheKey text lang ∧ Js.truthy value = true).
Proof.
  induction texts as [|text rest IH]; intros index newCache key value; simpl.
  { by left. }
  intros H. apply IH in H as [H | (t & Ht & -> & Hv)].
  2:{ right. exists t. by rewrite elem_of_cons; auto. }
  destruct (results !! index) as [r|]; [|by left].
  destruct (Js.truthy r) eqn:Hr; [|by left].
  destruct (decide (getCacheKey text lang = key)) as [<- | Hne].
  - rewrite lookup_insert_eq in H. inversion H; subst.
    right. exists text. by rewrite elem_of_cons; auto.
  - rewrite lookup_insert_ne in H by done. by left.
Qed.

(** Entries already there are kept unless the batch writes their key. *)
Lemma mergeFrom_keeps lang results texts :
  ∀ index newCache key,
    (∀ text, text ∈ texts → key ≠ getCacheKey text lang) →
    mergeFrom lang results index texts newCache !! key = newCache !! key.
Proof.
  induction texts as [|text rest IH]; intros index newCache key Hkey; simpl; [done|].
  rewrite IH by (intros t Ht; apply Hkey; by right).
  destruct (results !! index) as [r|]; [|done].
  destruct (Js.truthy r); [|done].
  rewrite lookup_insert_ne; [done|].
  intros Heq. by apply (Hkey text); [left|].
Qed.

(** *** The invariant *)

Lemma invariant_start : invariant start.
Proof.
  split; simpl; try done.
  - unfold language_codes. set_solver.
  - apply NoDup_nil_2.
Qed.

Lemma invariant_step (e : event) (sys sys' : system) :
  invariant sys → step e sys = Some sys' → invariant sys'.
Proof.
  intros [Hlang Htr Hmiss Hnd Hfl Hcache] Hstep.
  destruct e as [lang | text | | i env remote]; simpl in Hstep.
  - (* SetLanguage *)
    case_bool_decide as Hcode; [|done]. inversion Hstep; subst; clear Hstep.
    unfold handleSetLanguage.
    destruct (String.eqb lang (language (state sys))) eqn:Hsame; [by split|].
    destruct (String.eqb lang "English") eqn:Heng; simpl.
    + split; simpl; try done.
    + apply eqb_false_ne in Heng.
      split; simpl; try done. apply NoDup_nil_2.
  - (* Translate *)
    inversion Hstep; subst; clear Hstep.
    destruct (translate_frame text (state sys)) as (Hl & Hc & Ht).
    split; simpl.
    + by rewrite Hl.
    + by rewrite Hl, Ht.
    + destruct (translate_missing text (state sys)) as [-> | [-> Htext]]; [done|].
      apply Forall_forall. intros y [-> | Hy]%add_elem; [done|].
      by eapply Forall_forall in Hmiss.
    + destruct (translate_missing text (state sys)) as [-> | [-> _]]; [done|].
      by apply add_NoDup.
    + done.
    + by rewrite Hc.
  - (* TimerFires *)
    destruct (isTranslating (state sys)) eqn:Hon; [|done].
    unfold processTranslations_start in Hstep.
    destruct (length (neededTranslations (state sys)) =? 0)%nat;
      inversion Hstep; subst; clear Hstep.
    + by split.
    + split; simpl; try done; [by auto|].
      apply Forall_app. split; [done|]. apply Forall_singleton.
      split; simpl.
      * split; [done | by apply Htr].
      * apply Forall_forall. intros y Hy.
        unfold neededTranslations in Hy. apply list_elem_of_filter in Hy as [_ Hy].
        by eapply Forall_forall in Hmiss.
  - (* BatchCompletes *)
    destruct (inflight sys !! i) as [b|] eqn:Hb; [|done].
    inversion Hstep; subst; clear Hstep.
    assert (batch_ok b) as [[Hbcode Hbne] Hbtexts].
    { eapply Forall_forall in Hfl; [done|]. by eapply list_elem_of_lookup_2. }
    split; simpl.
    + by destruct (fst _).
    + done.
    + by destruct (fst _).
    + by destruct (fst _).
    + apply Forall_forall. intros b' Hb'.
      eapply Forall_forall in Hfl; [done|].
      by eapply list_elem_of_delete_inv.
    + intros key value. destruct (fst _) as [rs|]; simpl; [|by apply Hcache].
      intros [H | (t & Ht & -> & Hv)]%mergeFrom_entries; [by apply Hcache|].
      exists t, (target b).
      split; [done|]. split; [by split|]. split; [|done].
      by eapply Forall_forall in Hbtexts.
Qed.

Lemma reachable_invariant (sys : system) : reachable sys → invariant sys.
Proof.
  induction 1 as [|e sys sys' _ IH Hstep]; [apply invariant_start|].
  by eapply invariant_step.
Qed.

Lemma run_reachable (es : list event) (sys sys' : system) :
  reachable sys → run es sys = Some sys' → reachable sys'.
Proof.
  revert sys. induction es as [|e es IH]; intros sys Hr; simpl.
  - by intros [= <-].
  - destruct (step e sys) as [sys1|] eqn:Hstep; [|done].
    apply IH. by eapply reachable_step.
Qed.

Lemma translate_all_frame (texts : list string) (s : provider) :
  language (translate_all texts s) = language s
  ∧ cache (translate_all texts s) = cache s
  ∧ isTranslating (translate_all texts s) = isTranslating s.
Proof.
  revert s. induction texts as [|t texts IH]; intros s; simpl; [done|].
  destruct (IH (snd (translate t s))) as (-> & -> & ->).
  apply translate_frame.
Qed.

Lemma translate_all_pending (texts : list string) (s : provider) (x : string) :
  NoDup (missingTranslations s) → x ∈ missingTranslations s →
  NoDup (missingTranslations (translate_all texts s))
  ∧ x ∈ missingTranslations (translate_all texts s).
Proof.
  revert s. induction texts as [|t texts IH]; intros s Hnd Hx; simpl; [done|].
  apply IH.
  - destruct (translate_missing t s) as [-> | [-> _]]; [done | by apply add_NoDup].
  - destruct (translate_missing t s) as [-> | [-> _]]; [done|].
    apply add_elem. by right.
Qed.

(** *** The start of the run used as an example *)

Lemma shop_in_french_runs : run shop_in_french start = Some awaiting_shop.
Proof. vm_compute. reflexivity. Qed.

Lemma shop_translated_runs : run shop_translated start = Some boutique.
Proof. vm_compute. reflexivity. Qed.

Lemma boutique_reachable : reachable boutique.
Proof. eapply run_reachable; [apply reachable_start | apply shop_translated_runs]. Qed.

(** *** A batch that fails *)

Lemma getCacheKey_inj_text (lang t1 t2 : string) :
  getCacheKey t1 lang = getCacheKey t2 lang → t1 = t2.
Proof.
  unfold getCacheKey. induction lang as [|c lang IH]; simpl; intros H.
  - by inversion H.
  - inversion H. auto.
Qed.

(** When the results are the texts themselves, an entry [T ↦ T] stays. *)
Lemma mergeFrom_identity_keeps lang T texts :
  ∀ pre newCache,
    newCache !! getCacheKey T lang = Some T →
    mergeFrom lang (pre ++ texts) (length pre) texts newCache !! getCacheKey T lang = Some T.
Proof.
  induction texts as [|t rest IH]; intros pre newCache Hc; simpl; [done|].
  rewrite list_lookup_middle by done.
  replace (pre ++ t :: rest) with ((pre ++ [t]) ++ rest) by by rewrite <- app_assoc.
  replace (S (length pre)) with (length (pre ++ [t]))
    by (rewrite length_app; simpl; lia).
  apply IH. destruct (Js.truthy t); [|done].
  destruct (decide (getCacheKey t lang = getCacheKey T lang)) as [Heq | Hne].
  - apply getCacheKey_inj_text in Heq as ->. rewrite lookup_insert_eq. done.
  - by rewrite lookup_insert_ne.
Qed.

Lemma mergeFrom_identity lang T texts :
  ∀ pre newCache,
    T ∈ texts → Js.truthy T = true →
    mergeFrom lang (pre ++ texts) (length pre) texts newCache !! getCacheKey T lang = Some T.
Proof.
  induction texts as [|t rest IH]; intros pre newCache Hin HT; simpl.
  { by apply elem_of_nil in Hin. }
  rewrite list_lookup_middle by done.
  replace (pre ++ t :: rest) with ((pre ++ [t]) ++ rest) by by rewrite <- app_assoc.
  replace (S (length pre)) with (length (pre ++ [t]))
    by (rewrite length_app; simpl; lia).
  destruct (decide (T = t)) as [<- | Hne].
  - rewrite HT. apply mergeFrom_identity_keeps. by rewrite lookup_insert_eq.
  - apply IH; [|done]. apply elem_of_cons in Hin as [? | ?]; done.
Qed.

(** Whenever the remote call of [translateBatch] fails, the continuation of
    [processTranslations] receives the texts themselves and stores each
    non-empty one under its own key. *)
Lemma failed_batch_caches_each_text_as_itself env remote b s T :
  ServiceSpec.fails remote → T ∈ needed b → T ≠ "" →
  let results := fst (Service.translateBatch env remote (needed b) (target b) []) in
  results = Returned (needed b)
  ∧ cache (processTranslations_resume b results s) !! getCacheKey T (target b) = Some T.
Proof.
  intros Hfail Hin Hne results.
  assert (results = Returned (needed b)) as Hres.
  { unfold results. rewrite translateBatch_guarded. by apply guarded_call_fails. }
  split; [done|]. rewrite Hres. simpl.
  apply (mergeFrom_identity (target b) T (needed b) []); [done|].
  by apply truthy_nonempty.
Qed.

(** C1: the batch for "Shop" in French is awaited with an empty cache; its
    remote call rejects.  [translateBatch] catches the failure and returns
    its input, and the continuation of [processTranslations] stores it: the
    cache gains the entry "French|Shop" ↦ "Shop", so it is not left as it
    was.  "Shop" still resolves to "Shop". *)
Theorem failed_batch_is_written_to_the_cache :
  let failed := BatchCompletes 0 (EnvKey (Some "key")) Rejected in
  run shop_in_french start = Some awaiting_shop
  ∧ cache (state awaiting_shop) = ∅
  ∧ ∃ after,
      step failed awaiting_shop = Some after
      ∧ cache (state after) !! "French|Shop" = Some "Shop"
      ∧ cache (state after) ≠ cache (state awaiting_shop)
      ∧ fst (translate "Shop" (state after)) = "Shop".
Proof.
  split; [apply shop_in_french_runs|]. split; [done|].
  eexists. split; [reflexivity|].
  split; [by vm_compute|]. split; [|by vm_compute].
  intros Heq.
  assert (cache (state awaiting_shop) !! "French|Shop" = Some "Shop") as Habs.
  { rewrite <- Heq. by vm_compute. }
  by vm_compute in Habs.
Qed.

(** *** The claims about [translate] and [setLanguage] *)

(** C2: in every state the provider can reach, for every text T and
    non-English current language L with a cache entry keyed by (L, T),
    [translate(T)] returns the cached value and leaves the provider as it
    was (T is not added to the pending set), and T is not among the texts
    the next batch request would ask for. *)
Theorem cached_text_is_served (sys : system) (T v : string) :
  reachable sys →
  language (state sys) ≠ "English" →
  cache (state sys) !! getCacheKey T (language (state sys)) = Some v →
  translate T (state sys) = (v, state sys)
  ∧ step (Translate T) sys = Some sys
  ∧ T ∉ neededTranslations (state sys).
Proof.
  intros Hreach Hlang Hentry.
  destruct (reachable_invariant sys Hreach) as [Hcode _ _ _ _ Hcache].
  destruct (Hcache _ _ Hentry) as (text & lang & Hkey & [Hlc _] & Htext & Hv).
  apply getCacheKey_inj_codes in Hkey as [_ <-]; [|done..].
  assert (cached (cache (state sys)) (getCacheKey T (language (state sys))) = Some v)
    as Hc by by apply cached_Some.
  assert (translate T (state sys) = (v, state sys)) as Htr.
  { destruct (translate_cases T (state sys))
      as [[_ [He | [He | He]]] | [(w & Hw & _ & _ & Hcw) | (_ & _ & _ & Hcn)]].
    - done.
    - subst T. by destruct Htext.
    - destruct Htext as [_ Hne]. congruence.
    - rewrite Hw. congruence.
    - congruence. }
  split; [done|]. split.
  - simpl. rewrite Htr. by destruct sys.
  - unfold neededTranslations. rewrite list_elem_of_filter. intros [Hn _]. congruence.
Qed.

Lemma cached_text_is_served_witness :
  translate "Shop" (state boutique) = ("Boutique", state boutique)
  ∧ step (Translate "Shop") boutique = Some boutique
  ∧ "Shop" ∉ neededTranslations (state boutique).
Proof.
  apply (cached_text_is_served boutique "Shop" "Boutique").
  - apply boutique_reachable.
  - discriminate.
  - vm_compute. reflexivity.
Defined.

(** C3: for every non-empty, non-exempt text T with no cache entry for the
    current non-English language, [translate(T)] returns T unchanged and
    adds T to the pending set; after any further calls of [translate]
    (of T again, or of other texts) the pending set holds T exactly once.
    The pending set is a [Set]: it holds no element twice to begin with. *)
Theorem uncached_text_is_marked_pending_once (s : provider) (T : string) :
  NoDup (missingTranslations s) →
  language s ≠ "English" →
  T ≠ "" →
  exempt T = false →
  cache s !! getCacheKey T (language s) = None →
  fst (translate T s) = T
  ∧ snd (translate T s) = mark_pending T s
  ∧ T ∈ missingTranslations (snd (translate T s))
  ∧ snd (translate T (snd (translate T s))) = snd (translate T s)
  ∧ ∀ texts,
      count_occ string_dec
        (missingTranslations (translate_all texts (snd (translate T s)))) T = 1%nat.
Proof.
  intros Hnd Hlang Hne Hex Hentry.
  assert (translate T s = (T, mark_pending T s)) as Htr.
  { destruct (translate_cases T s)
      as [[_ [He | [He | He]]] | [(w & _ & _ & _ & Hcw) | (Hm & _)]];
      try congruence.
    rewrite (cached_None _ _ Hentry) in Hcw. done. }
  rewrite Htr. simpl.
  assert (T ∈ Js.StringSet.add T (missingTranslations s)) as Hin
    by (apply add_elem; by left).
  split; [done|]. split; [done|]. split; [done|]. split.
  - destruct (translate_cases T (mark_pending T s))
      as [[-> _] | [(w & -> & _) | (-> & _)]]; simpl; try done.
    unfold mark_pending; simpl. by rewrite add_idempotent.
  - intros texts.
    destruct (translate_all_pending texts (mark_pending T s) T) as [Hnd' Hin'].
    + simpl. by apply add_NoDup.
    + done.
    + by apply NoDup_count_one.
Qed.

Lemma uncached_text_is_marked_pending_once_witness :
  let s := handleSetLanguage "French" initial in
  fst (translate "Shop" s) = "Shop"
  ∧ snd (translate "Shop" s) = mark_pending "Shop" s
  ∧ "Shop" ∈ missingTranslations (snd (translate "Shop" s))
  ∧ snd (translate "Shop" (snd (translate "Shop" s))) = snd (translate "Shop" s)
  ∧ ∀ texts,
      count_occ string_dec
        (missingTranslations (translate_all texts (snd (translate "Shop" s)))) "Shop" = 1%nat.
Proof.
  apply (uncached_text_is_marked_pending_once (handleSetLanguage "French" initial) "Shop").
  - apply NoDup_nil_2.
  - discriminate.
  - discriminate.
  - reflexivity.
  - reflexivity.
Defined.

(** C4: when the current language is English, [translate(T)] returns T for
    every T and leaves the provider as it was, whatever the cache holds
    (it is neither read nor written, and nothing is added to the pending
    set); and in every state the provider can reach, the cache has no entry
    under a key of the language English. *)
Theorem english_is_pass_through :
  (∀ (s : provider) (T : string),
      language s = "English" →
      translate T s = (T, s)
      ∧ ∀ c, translate T (setCache (λ _, c) s) = (T, setCache (λ _, c) s))
  ∧ (∀ (sys : system) (T : string),
        reachable sys →
        cache (state sys) !! getCacheKey T "English" = None).
Proof.
  split.
  - intros s T Hlang. unfold translate, setCache. simpl. by rewrite Hlang.
  - intros sys T Hreach.
    destruct (reachable_invariant sys Hreach) as [_ _ _ _ _ Hcache].
    destruct (cache (state sys) !! getCacheKey T "English") as [v|] eqn:Hentry; [|done].
    destruct (Hcache _ _ Hentry) as (text & lang & Hkey & [Hlc Hne] & _).
    apply getCacheKey_inj_codes in Hkey as [<- _]; [done | | done].
    unfold language_codes. constructor.
Qed.

Lemma english_is_pass_through_witness :
  translate "Shop" initial = ("Shop", initial)
  ∧ cache (state boutique) !! getCacheKey "Shop" "English" = None.
Proof.
  destruct english_is_pass_through as [Hpass Hkeys].
  split.
  - apply (Hpass initial "Shop"). reflexivity.
  - apply (Hkeys boutique "Shop"). apply boutique_reachable.
Defined.

(** C5: whatever the language and whatever the cache holds, [translate]
    returns "Aura" for "Aura" and "Quiet living" for "Quiet living" and
    leaves the provider as it was; the exemption is decided on the input
    text alone. *)
Theorem brand_and_slogan_are_never_replaced (s : provider) :
  translate "Aura" s = ("Aura", s)
  ∧ translate "Quiet living" s = ("Quiet living", s)
  ∧ exempt "Aura" = true ∧ exempt "Quiet living" = true.
Proof.
  unfold translate.
  destruct (String.eqb (language s) "English"); simpl; done.
Qed.

(** C10: [setLanguage] called with the language that is current leaves the
    provider as it was: language, cache, pending set and [isTranslating]. *)
Theorem setLanguage_same_is_noop (s : provider) :
  handleSetLanguage (language s) s = s.
Proof.
  unfold handleSetLanguage. by rewrite String.eqb_refl.
Qed.

End ProviderFacts.

(** ** The checkout *)

Section CheckoutFacts.

Import Service Checkout.






(** The request fails in the service exactly as the checkout expects: a
    missing key, a rejected call, an empty or unparsable answer all make
    [calculateShippingEstimate] return null. *)
Lemma calculateShippingEstimate_failure env remote zipCode country city log :
  Js.truthy_opt (read_API_KEY env) = false ∨ ServiceSpec.fails remote
  ∨ remote = Resolved NoText →
  estimate_fails (fst (calculateShippingEstimate env remote zipCode country city log)).
Proof.
  intros H. left. rewrite calculateShippingEstimate_guarded, guarded_call_cases.
  destruct H as [-> | [[-> | ->] | ->]]; simpl; try done; by destruct (negb _).
Qed.

(** C6, as the code has it: for every postal-code input, if its length is
    at least 3 a lookup is scheduled behind the debounce timer, and when
    the timer elapses the suggestion list becomes exactly what
    [lookupZipLocation] returns for that input: the list the model
    answered, whatever its length, or the empty list; at most one request
    is sent.  If its length is below 3, no lookup is left scheduled, the
    suggestion list is set to empty and hidden. *)
Theorem zip_lookup_is_debounced (val : string) (s : checkout) :
  let s1 := handleZipChange val s in
  ((3 ≤ String.length val)%nat →
     debounceRef s1 = Some val
     ∧ isLookingUp s1 = true
     ∧ ∀ env remote,
         ∃ s2,
           debounce_elapses env remote s1
           = Some (Returned s2, snd (lookupZipLocation env remote val []))
           ∧ Returned (suggestions s2) = fst (lookupZipLocation env remote val [])
           ∧ suggestions s2
             = (if Js.truthy_opt (read_API_KEY env)
                then match remote with Resolved (Json v) => v | _ => [] end
                else [])
           ∧ showSuggestions s2 = true ∧ isLookingUp s2 = false ∧ debounceRef s2 = None
           ∧ (length (snd (lookupZipLocation env remote val [])) ≤ 1)%nat)
  ∧ ((String.length val < 3)%nat →
       debounceRef s1 = None
       ∧ suggestions s1 = []
       ∧ showSuggestions s1 = false
       ∧ ∀ env remote, debounce_elapses env remote s1 = None).
Proof.
  intros s1. split.
  - intros Hlen. unfold s1, handleZipChange.
    rewrite (proj2 (Nat.leb_le _ _) Hlen). simpl.
    split; [done|]. split; [done|].
    intros env remote. unfold debounce_elapses. simpl.
    rewrite lookupZipLocation_guarded.
    rewrite (guarded_call_cases env _ remote [] []).
    destruct (Js.truthy_opt (read_API_KEY env)); simpl.
    + destruct remote as [|[| |v]]; eexists; simpl; repeat split; simpl; lia.
    + eexists; simpl; repeat split; simpl; lia.
  - intros Hlen. unfold s1, handleZipChange.
    rewrite (proj2 (Nat.leb_gt _ _) Hlen). simpl. done.
Qed.

Lemma zip_lookup_is_debounced_witness :
  debounceRef (handleZipChange "981" initial) = Some "981"
  ∧ debounceRef (handleZipChange "98" initial) = None
  ∧ suggestions (handleZipChange "98" initial) = [].
Proof.
  destruct (zip_lookup_is_debounced "981" initial) as [Hlong _].
  destruct (zip_lookup_is_debounced "98" initial) as [_ Hshort].
  split; [|split].
  - apply Hlong. simpl. lia.
  - apply Hshort. simpl. lia.
  - apply Hshort. simpl. lia.
Defined.

(** C6 as it is stated fails: the input "981" has three characters, the
    model answers with six locations, and all six become suggestions. *)
Lemma six_suggestions_are_shown :
  let s1 := handleZipChange "981" initial in
  ∃ s2 sent,
    debounce_elapses (EnvKey (Some "key")) (Resolved (Json six_locations)) s1
    = Some (Returned s2, sent)
    ∧ suggestions s2 = six_locations
    ∧ length (suggestions s2) = 6%nat
    ∧ ¬ (length (suggestions s2) ≤ 5)%nat.
Proof.
  eexists _, _. split; [reflexivity|]. simpl.
  split; [done|]. split; [done|]. lia.
Qed.

End CheckoutFacts.

(** ** More on the language provider *)

Section ProviderBatches.

Import Provider ProviderSpec.

Lemma mergeFrom_lookup lang results texts :
  ∀ index newCache i t r,
    NoDup texts → texts !! i = Some t →
    results !! (index + i)%nat = Some r → Js.truthy r = true →
    mergeFrom lang results index texts newCache !! getCacheKey t lang = Some r.
Proof.
  induction texts as [|t0 rest IH]; intros index c i t r Hnd Ht Hr Hv; [done|].
  apply NoDup_cons in Hnd as [Hnotin Hnd]. simpl.
  destruct i as [|i]; simpl in Ht.
  - inversion Ht; subst. rewrite Nat.add_0_r in Hr. rewrite Hr, Hv.
    rewrite mergeFrom_keeps; [apply lookup_insert_eq|].
    intros t' Ht' Heq%getCacheKey_inj_text. by subst.
  - apply (IH (S index) _ i); try done.
    by replace (S index + i)%nat with (index + S i)%nat by lia.
Qed.

Lemma mergeFrom_skip lang results texts :
  ∀ index newCache i t,
    NoDup texts → texts !! i = Some t →
    Js.truthy_opt (results !! (index + i)%nat) = false →
    mergeFrom lang results index texts newCache !! getCacheKey t lang
    = newCache !! getCacheKey t lang.
Proof.
  induction texts as [|t0 rest IH]; intros index c i t Hnd Ht Hr; [done|].
  apply NoDup_cons in Hnd as [Hnotin Hnd]. simpl.
  destruct i as [|i]; simpl in Ht.
  - inversion Ht; subst. rewrite Nat.add_0_r in Hr.
    rewrite mergeFrom_keeps.
    + destruct (results !! index) as [r|]; [|done]. simpl in Hr. by rewrite Hr.
    + intros t' Ht' Heq%getCacheKey_inj_text. by subst.
  - rewrite (IH (S index) _ i); try done.
    + destruct (results !! index) as [r|]; [|done].
      destruct (Js.truthy r); [|done].
      rewrite lookup_insert_ne; [done|].
      intros Heq%getCacheKey_inj_text. subst.
      apply Hnotin. by eapply list_elem_of_lookup_2.
    + by replace (S index + i)%nat with (index + S i)%nat by lia.
Qed.

Lemma mergeFrom_grows lang results texts :
  ∀ index newCache key,
    is_Some (newCache !! key) →
    is_Some (mergeFrom lang results index texts newCache !! key).
Proof.
  induction texts as [|t rest IH]; intros index c key Hk; simpl; [done|].
  apply IH. destruct (results !! index) as [r|]; [|done].
  destruct (Js.truthy r); [|done].
  destruct (decide (getCacheKey t lang = key)) as [<- | Hne].
  - rewrite lookup_insert_eq. by eexists.
  - by rewrite lookup_insert_ne.
Qed.

Lemma reachable_batches_nodup (sys : system) :
  reachable sys → Forall (λ b, NoDup (needed b)) (inflight sys).
Proof.
  induction 1 as [|e sys sys' Hreach IH Hstep]; [by apply Forall_nil|].
  destruct e as [lang | text | | i env remote]; simpl in Hstep.
  - case_bool_decide; [|done]. by inversion Hstep; subst.
  - by inversion Hstep; subst.
  - destruct (isTranslating (state sys)); [|done].
    unfold processTranslations_start in Hstep.
    destruct (length (neededTranslations (state sys)) =? 0)%nat;
      inversion Hstep; subst; clear Hstep; simpl; [done|].
    apply Forall_app. split; [done|]. apply Forall_singleton. simpl.
    apply NoDup_filter. by destruct (reachable_invariant sys Hreach).
  - destruct (inflight sys !! i) as [b|]; [|done].
    inversion Hstep; subst; clear Hstep; simpl.
    apply Forall_forall. intros b' Hb'. eapply Forall_forall in IH; [done|].
    by eapply list_elem_of_delete_inv.
Qed.

Lemma reachable_batch (sys : system) (i : nat) (b : batch) :
  reachable sys → inflight sys !! i = Some b →
  NoDup (needed b) ∧ batch_ok b.
Proof.
  intros Hreach Hb. apply list_elem_of_lookup_2 in Hb. split.
  - by eapply Forall_forall in Hb; [|by apply reachable_batches_nodup].
  - destruct (reachable_invariant sys Hreach) as [_ _ _ _ Hfl _].
    by eapply Forall_forall in Hfl.
Qed.

Lemma entry_is_served (sys : system) (T v : string) :
  invariant sys →
  language (state sys) ≠ "English" →
  cache (state sys) !! getCacheKey T (language (state sys)) = Some v →
  translate T (state sys) = (v, state sys) ∧ T ∉ neededTranslations (state sys).
Proof.
  intros [Hcode _ _ _ _ Hcache] Hlang Hentry.
  destruct (Hcache _ _ Hentry) as (text & lang & Hkey & [Hlc _] & [Htruthy Hex] & Hv).
  apply getCacheKey_inj_codes in Hkey as [_ <-]; [|done..].
  assert (cached (cache (state sys)) (getCacheKey T (language (state sys))) = Some v)
    as Hc by by apply cached_Some.
  split.
  - unfold translate.
    rewrite (proj2 (String.eqb_neq _ _) Hlang), Htruthy, Hex, Hc. done.
  - unfold neededTranslations. rewrite list_elem_of_filter. intros [Hn _]. congruence.
Qed.

Lemma translateBatch_answer env rs texts lang log :
  Js.truthy_opt (read_API_KEY env) = true →
  fst (Service.translateBatch env (Resolved (Json rs)) texts lang log) = Returned rs.
Proof.
  intros Hkey. by rewrite translateBatch_guarded, guarded_call_cases, Hkey.
Qed.

(** An answered batch: each text whose position holds a non-empty result is
    cached under the batch's language with that result; from then on
    [translate] serves it while that language is current, and the next
    batch does not ask for it. *)
Theorem answered_batch_fills_the_cache (sys sys' : system) (i : nat) (b : batch)
    (env : process_env) (rs : list string) :
  reachable sys →
  inflight sys !! i = Some b →
  Js.truthy_opt (read_API_KEY env) = true →
  step (BatchCompletes i env (Resolved (Json rs))) sys = Some sys' →
  isTranslating (state sys') = false
  ∧ ∀ j t r,
      needed b !! j = Some t → rs !! j = Some r → r ≠ "" →
      cache (state sys') !! getCacheKey t (target b) = Some r
      ∧ (language (state sys) = target b →
         translate t (state sys') = (r, state sys')
         ∧ t ∉ neededTranslations (state sys')).
Proof.
  intros Hreach Hb Hkey Hstep.
  assert (reachable sys') as Hreach' by by eapply reachable_step.
  destruct (reachable_batch sys i b Hreach Hb) as [Hnd [[Hcode Hforeign] Htexts]].
  simpl in Hstep. rewrite Hb, (translateBatch_answer _ _ _ _ _ Hkey) in Hstep.
  inversion Hstep; subst; clear Hstep. simpl. split; [done|].
  intros j t r Ht Hr Hne.
  assert (mergeFrom (target b) rs 0 (needed b) (cache (state sys))
            !! getCacheKey t (target b) = Some r) as Hentry.
  { apply (mergeFrom_lookup _ _ _ 0 _ j); try done. by apply truthy_nonempty. }
  split; [done|]. intros Hlang.
  set (sys' := {| state := processTranslations_resume b (Returned rs) (state sys);
                  inflight := delete i (inflight sys) |}) in *.
  apply (entry_is_served sys' t r).
  - by apply reachable_invariant.
  - simpl. by rewrite Hlang.
  - simpl. by rewrite Hlang.
Qed.

Lemma awaiting_shop_reachable : reachable awaiting_shop.
Proof. eapply run_reachable; [apply reachable_start | apply shop_in_french_runs]. Qed.

Lemma answered_batch_fills_the_cache_witness :
  isTranslating (state boutique) = false
  ∧ ∀ j t r,
      needed {| needed := ["Shop"]; target := "French" |} !! j = Some t →
      ["Boutique"] !! j = Some r → r ≠ "" →
      cache (state boutique) !! getCacheKey t "French" = Some r
      ∧ (language (state awaiting_shop) = "French" →
         translate t (state boutique) = (r, state boutique)
         ∧ t ∉ neededTranslations (state boutique)).
Proof.
  apply (answered_batch_fills_the_cache awaiting_shop boutique 0
           {| needed := ["Shop"]; target := "French" |}
           (EnvKey (Some "key")) ["Boutique"]).
  - apply awaiting_shop_reachable.
  - reflexivity.
  - reflexivity.
  - vm_compute. reflexivity.
Defined.

(** An answer that is too short, or empty at a position: the text at that
    position keeps whatever entry it had, and the loader is switched off,
    so that no timer is armed to ask again. *)
Theorem uncovered_text_stays_uncached (sys sys' : system) (i : nat) (b : batch)
    (env : process_env) (rs : list string) (j : nat) (t : string) :
  reachable sys →
  inflight sys !! i = Some b →
  step (BatchCompletes i env (Resolved (Json rs))) sys = Some sys' →
  Js.truthy_opt (read_API_KEY env) = true →
  needed b !! j = Some t →
  Js.truthy_opt (rs !! j) = false →
  cache (state sys') !! getCacheKey t (target b)
  = cache (state sys) !! getCacheKey t (target b)
  ∧ step TimerFires sys' = None.
Proof.
  intros Hreach Hb Hstep Hkey Ht Hr.
  destruct (reachable_batch sys i b Hreach Hb) as [Hnd _].
  simpl in Hstep. rewrite Hb, (translateBatch_answer _ _ _ _ _ Hkey) in Hstep.
  inversion Hstep; subst; clear Hstep. simpl. split; [|done].
  by apply (mergeFrom_skip _ _ _ 0 _ j).
Qed.

Lemma uncovered_text_stays_uncached_witness :
  ∃ sys',
    step (BatchCompletes 0 (EnvKey (Some "key")) (Resolved (Json []))) awaiting_shop
    = Some sys'
    ∧ cache (state sys') !! getCacheKey "Shop" "French"
      = cache (state awaiting_shop) !! getCacheKey "Shop" "French"
    ∧ step TimerFires sys' = None.
Proof.
  eexists. split; [reflexivity|].
  apply (uncovered_text_stays_uncached awaiting_shop _ 0
           {| needed := ["Shop"]; target := "French" |}
           (EnvKey (Some "key")) [] 0 "Shop").
  - apply awaiting_shop_reachable.
  - reflexivity.
  - reflexivity.
  - reflexivity.
  - reflexivity.
  - reflexivity.
Defined.

(** No step of the provider removes a cache entry, and only the completion
    of a batch changes the cache at all. *)
Theorem cache_only_grows (e : event) (sys sys' : system) :
  step e sys = Some sys' →
  (∀ key, is_Some (cache (state sys) !! key) → is_Some (cache (state sys') !! key))
  ∧ ((∀ i env remote, e ≠ BatchCompletes i env remote) →
     cache (state sys') = cache (state sys)).
Proof.
  intros Hstep.
  destruct e as [lang | text | | i env remote]; simpl in Hstep.
  - case_bool_decide; [|done]. inversion Hstep; subst; simpl.
    assert (cache (handleSetLanguage lang (state sys)) = cache (state sys)) as ->; [|done].
    unfold handleSetLanguage.
    destruct (String.eqb lang _); [done|]. by destruct (negb _).
  - inversion Hstep; subst; simpl.
    destruct (translate_frame text (state sys)) as (_ & -> & _). done.
  - destruct (isTranslating (state sys)); [|done].
    unfold processTranslations_start in Hstep.
    destruct (length (neededTranslations (state sys)) =? 0)%nat;
      by inversion Hstep; subst.
  - destruct (inflight sys !! i) as [b|]; [|done].
    inversion Hstep; subst; clear Hstep; simpl. split.
    + intros key Hk. destruct (fst _) as [rs|]; simpl; [|done].
      by apply mergeFrom_grows.
    + intros Hne. by destruct (Hne i env remote).
Qed.

Lemma cache_only_grows_witness :
  let italian :=
    {| state := handleSetLanguage "Italian" (state boutique); inflight := [] |} in
  step (SetLanguage "Italian") boutique = Some italian
  ∧ cache (state boutique) !! "French|Shop" = Some "Boutique"
  ∧ is_Some (cache (state italian) !! "French|Shop")
  ∧ cache (state italian) = cache (state boutique).
Proof.
  intros italian.
  assert (step (SetLanguage "Italian") boutique = Some italian) as Hstep
    by (vm_compute; reflexivity).
  destruct (cache_only_grows (SetLanguage "Italian") boutique italian Hstep)
    as [Hgrow Hsame].
  split; [exact Hstep|]. split; [reflexivity|]. split.
  - apply Hgrow. exists "Boutique". reflexivity.
  - apply Hsame. intros i env remote. discriminate.
Defined.

(** A batch that completes, however late, writes under its own language
    only: the entries of every other language of the navigation bar are
    left as they were. *)
Theorem late_batch_spares_other_languages (sys sys' : system) (i : nat) (b : batch)
    (env : process_env) (remote : reply (response (list string)))
    (lang text : string) :
  reachable sys →
  inflight sys !! i = Some b →
  step (BatchCompletes i env remote) sys = Some sys' →
  lang ∈ language_codes →
  lang ≠ target b →
  cache (state sys') !! getCacheKey text lang = cache (state sys) !! getCacheKey text lang.
Proof.
  intros Hreach Hb Hstep Hlang Hne.
  destruct (reachable_batch sys i b Hreach Hb) as [_ [[Hcode _] _]].
  simpl in Hstep. rewrite Hb in Hstep. inversion Hstep; subst; clear Hstep. simpl.
  destruct (fst _) as [rs|]; simpl; [|done].
  apply mergeFrom_keeps. intros t _ Heq.
  apply getCacheKey_inj_codes in Heq as [? _]; done.
Qed.

Lemma late_batch_spares_other_languages_witness :
  cache (state boutique) !! getCacheKey "Shop" "Italian"
  = cache (state awaiting_shop) !! getCacheKey "Shop" "Italian".
Proof.
  apply (late_batch_spares_other_languages awaiting_shop boutique 0
           {| needed := ["Shop"]; target := "French" |}
           (EnvKey (Some "key")) (Resolved (Json ["Boutique"]))).
  - apply awaiting_shop_reachable.
  - reflexivity.
  - vm_compute. reflexivity.
  - unfold language_codes. right. left.
  - discriminate.
Defined.

(** Switching to another non-English language empties the pending set: if
    the timer elapses before any call site has registered a text, the
    loader is switched off and nothing is requested. *)
Theorem switch_then_timer_requests_nothing (lang : string) (s : provider) :
  lang ≠ language s →
  lang ≠ "English" →
  let s1 := handleSetLanguage lang s in
  language s1 = lang
  ∧ isTranslating s1 = true
  ∧ missingTranslations s1 = []
  ∧ cache s1 = cache s
  ∧ processTranslations_start s1 = (setIsTranslating false s1, None).
Proof.
  intros Hne Heng. unfold handleSetLanguage.
  rewrite (proj2 (String.eqb_neq _ _) Hne), (proj2 (String.eqb_neq _ _) Heng).
  simpl. done.
Qed.

Lemma switch_then_timer_requests_nothing_witness :
  let s1 := handleSetLanguage "Italian" (state boutique) in
  language s1 = "Italian"
  ∧ isTranslating s1 = true
  ∧ missingTranslations s1 = []
  ∧ cache s1 = cache (state boutique)
  ∧ processTranslations_start s1 = (setIsTranslating false s1, None).
Proof.
  apply (switch_then_timer_requests_nothing "Italian" (state boutique)); discriminate.
Defined.

(** What holds whenever the provider is observed: the language is one of
    the navigation bar, the loader is never on while the language is
    English, and the pending set holds no text twice. *)
Theorem loader_is_off_in_english (sys : system) :
  reachable sys →
  language (state sys) ∈ language_codes
  ∧ (language (state sys) = "English" → isTranslating (state sys) = false)
  ∧ NoDup (missingTranslations (state sys)).
Proof.
  intros Hreach.
  destruct (reachable_invariant sys Hreach) as [Hcode Htr _ Hnd _ _].
  split; [done|]. split; [|done].
  intros Heng. destruct (isTranslating (state sys)); [|done].
  by destruct Htr.
Qed.

Lemma loader_is_off_in_english_witness :
  language (state boutique) ∈ language_codes
  ∧ (language (state boutique) = "English" → isTranslating (state boutique) = false)
  ∧ NoDup (missingTranslations (state boutique)).
Proof. apply (loader_is_off_in_english boutique). apply boutique_reachable. Defined.

(** The empty string, "Aura" and any text containing the slogan are never
    sent for translation and never cached: every pending text and every
    text of an awaited batch is non-empty and not exempt, every batch is for
    a non-English language of the navigation bar, and every cached value is
    non-empty. *)
Theorem exempt_text_is_never_requested (sys : system) :
  reachable sys →
  (∀ t, t ∈ missingTranslations (state sys) → t ≠ "" ∧ exempt t = false)
  ∧ (∀ b t, b ∈ inflight sys → t ∈ needed b →
       t ≠ "" ∧ exempt t = false
       ∧ target b ∈ language_codes ∧ target b ≠ "English")
  ∧ (∀ key v, cache (state sys) !! key = Some v → v ≠ "").
Proof.
  intros Hreach.
  destruct (reachable_invariant sys Hreach) as [_ _ Hmiss _ Hfl Hcache].
  split; [|split].
  - intros t Ht. eapply Forall_forall in Hmiss as [Htr Hex]; [|done].
    split; [by apply truthy_nonempty | done].
  - intros b t Hb Ht. eapply Forall_forall in Hfl as [[Hc Hf] Htexts]; [|done].
    eapply Forall_forall in Htexts as [Htr Hex]; [|done].
    split; [by apply truthy_nonempty | done].
  - intros key v Hv. destruct (Hcache _ _ Hv) as (_ & _ & _ & _ & _ & Htr).
    by apply truthy_nonempty.
Qed.

Lemma exempt_text_is_never_requested_witness :
  (∀ t, t ∈ missingTranslations (state awaiting_shop) → t ≠ "" ∧ exempt t = false)
  ∧ (∀ b t, b ∈ inflight awaiting_shop → t ∈ needed b →
       t ≠ "" ∧ exempt t = false
       ∧ target b ∈ language_codes ∧ target b ≠ "English")
  ∧ (∀ key v, cache (state awaiting_shop) !! key = Some v → v ≠ "").
Proof.
  apply (exempt_text_is_never_requested awaiting_shop). apply awaiting_shop_reachable.
Defined.

End ProviderBatches.

(** ** More on [translate] and the exemption test *)

Section TranslateFacts.

Import Provider ProviderSpec.

Lemma prefix_spec (s1 s2 : string) :
  String.prefix s1 s2 = true ↔ ∃ post, s2 = s1 +:+ post.
Proof.
  revert s2. induction s1 as [|a s1 IH]; intros s2; simpl.
  - destruct s2; split; eauto.
  - destruct s2 as [|b s2].
    + split; [done | by intros [post ?]].
    + simpl. destruct (ascii_dec a b) as [-> | Hne].
      * destruct (IH s2) as [IH1 IH2]. split.
        -- intros H. destruct (IH1 H) as [post ->]. by exists post.
        -- intros [post H]. injection H as H. apply IH2. by exists post.
      * split; [done|]. intros [post H]. inversion H. done.
Qed.

Lemma toLowerCase_app (a b : string) :
  Js.toLowerCase (a +:+ b) = Js.toLowerCase a +:+ Js.toLowerCase b.
Proof. induction a as [|c a IH]; simpl; [done | by rewrite IH]. Qed.

Lemma toLowerCase_split (t a b : string) :
  Js.toLowerCase t = a +:+ b →
  ∃ a' b', t = a' +:+ b' ∧ Js.toLowerCase a' = a ∧ Js.toLowerCase b' = b.
Proof.
  revert t. induction a as [|c a IH]; intros t H; simpl in H.
  - by exists "", t.
  - destruct t as [|d t]; [done|]. simpl in H. inversion H as [[Hc Ht]].
    destruct (IH t Ht) as (a' & b' & -> & Ha & Hb).
    exists (String d a'), b'. simpl. by rewrite Ha.
Qed.

Lemma includes_nil (needle : string) :
  Js.includes needle "" = String.prefix needle "".
Proof. unfold Js.includes. apply orb_false_r. Qed.

Lemma includes_cons (needle : string) (c : ascii) (hay : string) :
  Js.includes needle (String c hay)
  = String.prefix needle (String c hay) || Js.includes needle hay.
Proof. reflexivity. Qed.

(** [includes] finds the needle exactly when the text is some prefix, the
    needle, some suffix. *)
Theorem includes_spec (needle hay : string) :
  Js.includes needle hay = true ↔ ∃ pre post, hay = pre +:+ needle +:+ post.
Proof.
  split.
  - induction hay as [|c hay IH].
    + rewrite includes_nil. intros [post ->]%prefix_spec. by exists "", post.
    + rewrite includes_cons.
      intros [[post ->]%prefix_spec | H]%orb_true_iff; [by exists "", post|].
      destruct (IH H) as (pre & post & ->). by exists (String c pre), post.
  - intros (pre & post & ->). induction pre as [|c pre IH].
    + assert (String.prefix needle (needle +:+ post) = true) as Hp
        by (apply prefix_spec; eauto).
      change ("" +:+ needle +:+ post) with (needle +:+ post).
      destruct (needle +:+ post) as [|c rest].
      * by rewrite includes_nil.
      * by rewrite includes_cons, Hp.
    + change (String c pre +:+ needle +:+ post)
        with (String c (pre +:+ needle +:+ post)).
      rewrite includes_cons, IH. apply orb_true_r.
Qed.

(** The texts [translate] never touches: "Aura" exactly as written, and
    every text that contains the slogan in whatever letter case. *)
Theorem exempt_spec (text : string) :
  exempt text = true ↔
  text = "Aura"
  ∨ ∃ pre mid post, text = pre +:+ mid +:+ post ∧ Js.toLowerCase mid = "quiet living".
Proof.
  unfold exempt. rewrite orb_true_iff, includes_spec, String.eqb_eq. split.
  - intros [(pre & post & H) | ->]; [|by left]. right.
    apply toLowerCase_split in H as (pre' & rest & -> & _ & H).
    apply toLowerCase_split in H as (mid & post' & -> & Hmid & _).
    by exists pre', mid, post'.
  - intros [-> | (pre & mid & post & -> & Hmid)]; [by right|]. left.
    exists (Js.toLowerCase pre), (Js.toLowerCase post).
    by rewrite !toLowerCase_app, Hmid.
Qed.

(** Rendering the same text again changes nothing more: the second call
    returns the same string and leaves the state of the first. *)
Theorem translate_is_idempotent (text : string) (s : provider) :
  translate text (snd (translate text s)) = translate text s.
Proof.
  destruct (translate_cases text s)
    as [[H _] | [(v & H & _) | (H & Hlang & [Htr Hex] & Hc)]]; rewrite H; simpl; try done.
  unfold translate, mark_pending. simpl.
  rewrite (proj2 (String.eqb_neq _ _) Hlang), Htr, Hex, Hc. simpl.
  by rewrite add_idempotent.
Qed.

(** [translate] returns its argument or the cache entry under its key, and
    never turns a non-empty text into the empty string; it changes neither
    the language, nor the cache, nor the loader flag, and takes nothing out
    of the pending set. *)
Theorem translate_returns_text_or_entry (text : string) (s : provider) :
  let '(shown, s') := translate text s in
  (shown = text ∨ cache s !! getCacheKey text (language s) = Some shown)
  ∧ (text ≠ "" → shown ≠ "")
  ∧ language s' = language s ∧ cache s' = cache s
  ∧ isTranslating s' = isTranslating s
  ∧ (∀ t, t ∈ missingTranslations s → t ∈ missingTranslations s').
Proof.
  destruct (translate_cases text s)
    as [[H _] | [(v & H & _ & _ & Hc) | (H & _)]]; rewrite H; simpl.
  - repeat split; auto.
  - apply cached_Some in Hc as [Hc Hv]. repeat split; auto.
    intros _. by apply truthy_nonempty.
  - repeat split; auto. intros t Ht. apply add_elem. by right.
Qed.

Lemma translate_returns_text_or_entry_witness :
  fst (translate "Shop" (state boutique)) ≠ "".
Proof.
  pose proof (translate_returns_text_or_entry "Shop" (state boutique)) as H.
  destruct (translate "Shop" (state boutique)) as [shown s'].
  destruct H as (_ & Hne & _). simpl. apply Hne. discriminate.
Defined.

End TranslateFacts.

(** ** More on the service functions *)

Section ServiceRequests.

Import Service ServiceSpec.

Lemma first_inline_data_spec (parts : list (option string)) (d : string) :
  first_inline_data parts = Some d ↔
  ∃ pre post, parts = pre ++ Some d :: post
              ∧ d ≠ "" ∧ Forall (λ part, Js.truthy_opt part = false) pre.
Proof.
  induction parts as [|part rest IH]; simpl.
  - split; [done|]. intros (pre & post & H & _). by destruct pre.
  - destruct (Js.truthy_opt part) eqn:Hp.
    + split.
      * intros ->. exists [], rest. repeat split; [|done].
        simpl in Hp. unfold Js.truthy in Hp. apply negb_true_iff in Hp.
        by apply String.eqb_neq.
      * intros ([|p pre] & post & H & _ & Hpre); simpl in H.
        -- by inversion H.
        -- inversion H; subst. apply Forall_cons in Hpre as [Hpre _]. congruence.
    + rewrite IH. split.
      * intros (pre & post & -> & Hd & Hpre). exists (part :: pre), post.
        repeat split; [done|]. by apply Forall_cons.
      * intros ([|p pre] & post & H & Hd & Hpre); simpl in H.
        -- inversion H; subst. simpl in Hp. apply truthy_nonempty in Hd. congruence.
        -- inversion H; subst. apply Forall_cons in Hpre as [_ Hpre].
           by exists pre, post.
Qed.

(** The image generation never throws and sends exactly one request; it
    returns the data of the first part of the response that carries any,
    and nothing when the call rejects or no part carries data. *)
Theorem image_generation_returns_first_data (apiKey prompt : string)
    (inputImageBase64 : option string) (remote : reply (list (option string)))
    (log : list request) :
  ∃ found req,
    generateImageWithNanoBanana apiKey prompt inputImageBase64 remote log
    = (Returned found, log ++ [req])
    ∧ (remote = Rejected → found = None)
    ∧ ∀ d, found = Some d ↔
           ∃ pre post, remote = Resolved (pre ++ Some d :: post)
                       ∧ d ≠ "" ∧ Forall (λ part, Js.truthy_opt part = false) pre.
Proof.
  unfold generateImageWithNanoBanana, try_catch, bind, send.
  destruct remote as [|parts]; eexists _, _; (split; [reflexivity|]); split; try done.
  - intros d. split; [done|]. by intros (? & ? & ? & _).
  - intros d. rewrite first_inline_data_spec. split.
    + intros (pre & post & -> & ?). by exists pre, post.
    + intros (pre & post & [= ->] & ?). by exists pre, post.
Qed.

(** With a key, each of the four functions that parse a JSON answer sends
    exactly one request, whatever comes back; a well-formed answer is
    returned as it is, unchecked, and an answer without text gives the
    fallback. *)
Theorem keyed_call_sends_one_request (env : process_env) (log : list request) :
  Js.truthy_opt (read_API_KEY env) = true →
  (∀ remote texts lang,
      snd (translateBatch env remote texts lang log)
      = log ++ [GenerateContent flash (TranslateBatchPrompt texts lang)]
      ∧ (∀ v, remote = Resolved (Json v) →
              fst (translateBatch env remote texts lang log) = Returned v)
      ∧ (remote = Resolved NoText →
         fst (translateBatch env remote texts lang log) = Returned texts))
  ∧ (∀ remote zipCode,
        snd (lookupZipLocation env remote zipCode log)
        = log ++ [GenerateContent flash (ZipPrompt zipCode)]
        ∧ (∀ v, remote = Resolved (Json v) →
                fst (lookupZipLocation env remote zipCode log) = Returned v)
        ∧ (remote = Resolved NoText →
           fst (lookupZipLocation env remote zipCode log) = Returned []))
  ∧ (∀ remote zipCode country city,
        snd (calculateShippingEstimate env remote zipCode country city log)
        = log ++ [GenerateContent flash (ShippingPrompt zipCode country city)]
        ∧ (∀ v, remote = Resolved (Json v) →
                fst (calculateShippingEstimate env remote zipCode country city log)
                = Returned v)
        ∧ (remote = Resolved NoText →
           fst (calculateShippingEstimate env remote zipCode country city log)
           = Returned None))
  ∧ (∀ remote description features lang,
        snd (translateProductDetails env remote description features lang log)
        = log ++ [GenerateContent flash (TranslateDetailsPrompt description features lang)]
        ∧ (∀ v, remote = Resolved (Json v) →
                fst (translateProductDetails env remote description features lang log)
                = Returned v)
        ∧ (remote = Resolved NoText →
           fst (translateProductDetails env remote description features lang log)
           = Returned None)).
Proof.
  intros Hkey.
  assert (∀ A req (remote : reply (response A)) fallback,
            snd (guarded_call env req remote fallback log) = log ++ [req]
            ∧ (∀ v, remote = Resolved (Json v) →
                    fst (guarded_call env req remote fallback log) = Returned v)
            ∧ (remote = Resolved NoText →
               fst (guarded_call env req remote fallback log) = Returned fallback))
    as Hg.
  { intros A req remote fallback. rewrite guarded_call_cases, Hkey. simpl.
    split; [by destruct remote as [|[| |v]]|]. split; [by intros v ->| by intros ->]. }
  split; [|split; [|split]]; intros.
  - rewrite translateBatch_guarded. apply Hg.
  - rewrite lookupZipLocation_guarded. apply Hg.
  - rewrite calculateShippingEstimate_guarded. apply Hg.
  - rewrite translateProductDetails_guarded. apply Hg.
Qed.

Lemma keyed_call_sends_one_request_witness :
  snd (Service.translateBatch (EnvKey (Some "key")) Rejected ["Shop"] "French" [])
  = [GenerateContent flash (TranslateBatchPrompt ["Shop"] "French")].
Proof.
  destruct (keyed_call_sends_one_request (EnvKey (Some "key")) []) as [Hb _];
    [reflexivity|].
  apply (Hb Rejected ["Shop"] "French").
Defined.

(** [translateContent] returns either the text it was given or the
    non-empty text of the response, so a non-empty text never comes back
    empty; with a key it sends exactly one request. *)
Theorem translateContent_never_blanks (env : process_env) (remote : reply (option string))
    (text lang : string) (log : list request) :
  text ≠ "" →
  ∃ shown,
    fst (translateContent env remote text lang log) = Returned shown
    ∧ shown ≠ ""
    ∧ (shown = text ∨ remote = Resolved (Some shown))
    ∧ (Js.truthy_opt (read_API_KEY env) = true →
       snd (translateContent env remote text lang log)
       = log ++ [GenerateContent flash (TranslateContentPrompt text lang)]).
Proof.
  intros Hne. unfold translateContent, try_catch, bind, send.
  destruct (Js.truthy_opt (read_API_KEY env)); simpl.
  - destruct remote as [|[t|]]; simpl.
    + exists text. auto.
    + destruct (Js.truthy t) eqn:Ht; simpl.
      * exists t. repeat split; auto. by apply truthy_nonempty.
      * exists text. auto.
    + exists text. auto.
  - exists text. repeat split; auto. done.
Qed.

Lemma translateContent_never_blanks_witness :
  ∃ shown,
    fst (Service.translateContent (EnvKey (Some "key")) (Resolved (Some "")) "Shop" "Italian" [])
    = Returned shown
    ∧ shown ≠ ""
    ∧ (shown = "Shop" ∨ Resolved (Some "") = Resolved (Some shown))
    ∧ (Js.truthy_opt (read_API_KEY (EnvKey (Some "key"))) = true →
       snd (Service.translateContent (EnvKey (Some "key")) (Resolved (Some "")) "Shop" "Italian" [])
       = [] ++ [GenerateContent flash (TranslateContentPrompt "Shop" "Italian")]).
Proof.
  apply (translateContent_never_blanks (EnvKey (Some "key")) (Resolved (Some ""))
           "Shop" "Italian" []).
  discriminate.
Defined.

(** Closes a case of the turn in which the answer carries no image. *)
Local Ltac sent_without_image :=
  eexists; split; [rewrite <- ?app_assoc; reflexivity|]; simpl;
  split; [by auto|]; split; [by split|];
  intros a img [= <-] Himg; by simpl in Himg.

(** The count of the requests of one turn, and where an image comes from. *)
Lemma concierge_turn_counts (env : process_env) (remote : concierge_remote)
    (history : list (string * string)) (newMessage : string)
    (activeProduct : option Product) (imageBase64 : option string)
    (log : list request) :
  let run :=
    sendMessageToGemini env remote history newMessage activeProduct imageBase64 log in
  ∃ sent,
    snd run = log ++ sent
    ∧ (length sent = 0 ∨ length sent = 1 ∨ length sent = 3)%nat
    ∧ (Js.truthy_opt (read_API_KEY env) = false ↔ sent = [])
    ∧ (∀ a img,
         fst run = Returned a → image a = Some img →
         length sent = 3%nat ∧ img ≠ ""
         ∧ (∃ parts, image_call remote = Resolved parts
                     ∧ first_inline_data parts = Some img)
         ∧ ∃ r, user_turn remote = Resolved r ∧ asks_for_image r).
Proof.
  unfold sendMessageToGemini, generateImageWithNanoBanana, try_catch, bind, send, ret, throw.
  destruct (read_API_KEY env) as [apiKey|]; simpl;
    [destruct (Js.truthy apiKey) eqn:Hkey; simpl|].
  2,3: exists []; rewrite app_nil_r; split; [done|]; split; [by left|];
       split; [done|]; intros a img [= <-] Himg; by simpl in Himg.
  destruct (user_turn remote) as [|r] eqn:Hu; simpl; [sent_without_image|].
  destruct (head (functionCalls r)) as [call|] eqn:Hhead; simpl; [|sent_without_image].
  destruct (String.eqb (fc_name call) "edit_image") eqn:Hname; simpl;
    [|sent_without_image].
  apply String.eqb_eq in Hname.
  destruct (fc_args call) as [p|] eqn:Hargs; simpl; [|sent_without_image].
  assert (asks_for_image r) as Hasks by by exists call, p.
  destruct (image_call remote) as [|parts] eqn:Hi; simpl.
  { destruct (tool_turn remote) as [|tr]; simpl; sent_without_image. }
  destruct (first_inline_data parts) as [d|] eqn:Hd; simpl.
  2:{ destruct (tool_turn remote) as [|tr]; simpl; sent_without_image. }
  assert (Js.truthy d = true ∧ d ≠ "") as [Htd Hne].
  { apply first_inline_data_spec in Hd as (_ & _ & _ & Hne & _).
    split; [by apply truthy_nonempty | done]. }
  rewrite Htd.
  destruct (tool_turn remote) as [|tr]; simpl; [sent_without_image|].
  eexists. split; [rewrite <- !app_assoc; reflexivity|]. simpl.
  split; [by auto|]. split; [by split|].
  intros a img [= <-] [= <-]. eauto 10.
Qed.

(** The requests of one turn, in closed form. *)
Lemma sendMessageToGemini_sent env remote history newMessage activeProduct imageBase64 log :
  snd (sendMessageToGemini env remote history newMessage activeProduct imageBase64 log)
  = log ++
    (if Js.truthy_opt (read_API_KEY env) then
       match ConciergeSpec.requested_prompt remote with
       | Some p =>
           [ ConciergeSpec.user_request history activeProduct newMessage imageBase64;
             ConciergeSpec.image_request p imageBase64;
             ConciergeSpec.report_request history activeProduct
               (if Js.truthy_opt (ConciergeSpec.generated remote)
                then "Image generated successfully."
                else "Failed to generate image.") ]
       | None =>
           [ ConciergeSpec.user_request history activeProduct newMessage imageBase64 ]
       end
     else []).
Proof.
  unfold sendMessageToGemini, generateImageWithNanoBanana, try_catch, bind, send, ret, throw.
  unfold ConciergeSpec.requested_prompt, ConciergeSpec.generated.
  destruct (read_API_KEY env) as [apiKey|]; simpl;
    [destruct (Js.truthy apiKey) eqn:Hkey; simpl|]; try by rewrite app_nil_r.
  destruct (user_turn remote) as [|r]; simpl; [done|].
  destruct (head (functionCalls r)) as [call|]; simpl; [|done].
  destruct (String.eqb (fc_name call) "edit_image"); simpl; [|done].
  destruct (fc_args call) as [p|]; simpl; [|done].
  destruct (image_call remote) as [|parts]; simpl.
  { destruct (tool_turn remote); simpl; by rewrite <- !app_assoc. }
  destruct (first_inline_data parts) as [d|]; simpl.
  - destruct (Js.truthy d); simpl;
      destruct (tool_turn remote); simpl; by rewrite <- !app_assoc.
  - destruct (tool_turn remote); simpl; by rewrite <- !app_assoc.
Qed.

Lemma requested_prompt_Some (remote : concierge_remote) r call p :
  user_turn remote = Resolved r →
  head (functionCalls r) = Some call →
  fc_name call = "edit_image" →
  fc_args call = Some p →
  ConciergeSpec.requested_prompt remote = Some p.
Proof.
  intros Hu Hhead Hname Hargs. unfold ConciergeSpec.requested_prompt.
  by rewrite Hu, Hhead, Hname, Hargs.
Qed.

Lemma requested_prompt_None (remote : concierge_remote) :
  ¬ (∃ r, user_turn remote = Resolved r ∧ asks_for_image r) →
  ConciergeSpec.requested_prompt remote = None.
Proof.
  intros Hno. unfold ConciergeSpec.requested_prompt.
  destruct (user_turn remote) as [|r] eqn:Hu; [done|].
  destruct (head (functionCalls r)) as [call|] eqn:Hhead; [|done].
  destruct (String.eqb (fc_name call) "edit_image") eqn:Hname; [|done].
  destruct (fc_args call) as [p|] eqn:Hargs; [|done].
  destruct Hno. exists r. split; [done|]. exists call, p.
  by apply String.eqb_eq in Hname.
Qed.

(** One concierge turn sends no request without a key.  With a key it
    sends the user's turn alone, unless that turn is answered with a call
    of the image tool with arguments; then it sends three requests, in
    this order after what was sent before: the user's turn, the image
    generation with the prompt of the call, and the report to the model,
    which reads 'Image generated successfully.' when the generation
    returned data and 'Failed to generate image.' when it did not.  An
    answer carries an image only when the model asked for the image tool
    and the image generation returned non-empty data. *)
Theorem concierge_turn_requests (env : process_env) (remote : concierge_remote)
    (history : list (string * string)) (newMessage : string)
    (activeProduct : option Product) (imageBase64 : option string)
    (log : list request) :
  let run :=
    sendMessageToGemini env remote history newMessage activeProduct imageBase64 log in
  let user := ConciergeSpec.user_request history activeProduct newMessage imageBase64 in
  ∃ sent,
    snd run = log ++ sent
    ∧ (length sent = 0 ∨ length sent = 1 ∨ length sent = 3)%nat
    ∧ (Js.truthy_opt (read_API_KEY env) = false ↔ sent = [])
    ∧ (∀ a img,
         fst run = Returned a → image a = Some img →
         length sent = 3%nat ∧ img ≠ ""
         ∧ (∃ parts, image_call remote = Resolved parts
                     ∧ first_inline_data parts = Some img)
         ∧ ∃ r, user_turn remote = Resolved r ∧ asks_for_image r)
    ∧ (Js.truthy_opt (read_API_KEY env) = true →
       ¬ (∃ r, user_turn remote = Resolved r ∧ asks_for_image r) →
       sent = [user])
    ∧ (∀ r call p,
         Js.truthy_opt (read_API_KEY env) = true →
         user_turn remote = Resolved r →
         head (functionCalls r) = Some call →
         fc_name call = "edit_image" →
         fc_args call = Some p →
         sent = [ user;
                  GenerateContent flash_image
                    (ImagePrompt p (ConciergeSpec.image_input imageBase64));
                  ChatSendMessage flash history activeProduct
                    (FunctionResponse "edit_image"
                       (if Js.truthy_opt (ConciergeSpec.generated remote)
                        then "Image generated successfully."
                        else "Failed to generate image.")) ]).
Proof.
  intros run user.
  destruct (concierge_turn_counts env remote history newMessage activeProduct
              imageBase64 log) as (sent & Hsent & Hlen & Hkey & Himage).
  exists sent. split; [exact Hsent|]. split; [exact Hlen|]. split; [exact Hkey|].
  split; [exact Himage|].
  pose proof (sendMessageToGemini_sent env remote history newMessage activeProduct
                imageBase64 log) as Hclosed.
  rewrite Hsent in Hclosed. apply app_inv_head in Hclosed.
  split.
  - intros Hk Hno. by rewrite Hclosed, Hk, (requested_prompt_None _ Hno).
  - intros r call p Hk Hu Hhead Hname Hargs.
    by rewrite Hclosed, Hk, (requested_prompt_Some _ _ _ _ Hu Hhead Hname Hargs).
Qed.

Lemma concierge_turn_requests_witness :
  let run :=
    Service.sendMessageToGemini (EnvKey (Some "key")) Examples.image_success_remote
      [] "add a cat" None None [] in
  fst run = Returned {| text := Some "Here it is."; image := Some "aGVsbG8=" |}
  ∧ snd run
    = [ ChatSendMessage flash [] None (UserTurn "add a cat" None);
        GenerateContent flash_image (ImagePrompt "add a cat" None);
        ChatSendMessage flash [] None
          (FunctionResponse "edit_image" "Image generated successfully.") ]
  ∧ ∃ parts, image_call Examples.image_success_remote = Resolved parts
             ∧ first_inline_data parts = Some "aGVsbG8=".
Proof.
  intros run.
  destruct (concierge_turn_requests (EnvKey (Some "key")) Examples.image_success_remote
              [] "add a cat" None None []) as (sent & Hsent & _ & _ & Himage & _ & Hthree).
  destruct (Himage {| text := Some "Here it is."; image := Some "aGVsbG8=" |} "aGVsbG8=")
    as (_ & _ & Hparts & _); [reflexivity | reflexivity |].
  split; [reflexivity|]. split; [|exact Hparts].
  unfold run. rewrite Hsent. simpl.
  apply (Hthree
           {| functionCalls := [ {| fc_name := "edit_image"; fc_args := Some "add a cat" |} ];
              result_text := None |}
           {| fc_name := "edit_image"; fc_args := Some "add a cat" |}
           "add a cat"); reflexivity.
Defined.

End ServiceRequests.

(** ** More on the checkout *)

Section CheckoutDisplay.

Import Service ServiceSpec Checkout CheckoutView.

Lemma handleZipChange_resets (val : string) (s : checkout) :
  let s1 := handleZipChange val s in
  zipCode s1 = val ∧ isShippingCalculated s1 = false ∧ shippingDetails s1 = None
  ∧ selectedCountry s1 = "" ∧ isCalculating s1 = isCalculating s
  ∧ shippingCost s1 = shippingCost s
  ∧ debounceRef s1 = (if (3 <=? String.length val)%nat then Some val else None).
Proof. unfold handleZipChange. by destruct (3 <=? String.length val)%nat. Qed.

Lemma run_app (evs1 evs2 : list event) (s : checkout) :
  run (evs1 ++ evs2) s = run evs2 (run evs1 s).
Proof. unfold run. apply foldl_app. Qed.

Lemma lookup_outcome env remote val :
  lookupZipLocation env remote val []
  = (Returned (if Js.truthy_opt (read_API_KEY env)
               then match remote with Resolved (Json v) => v | _ => [] end
               else []),
     if Js.truthy_opt (read_API_KEY env)
     then [GenerateContent flash (ZipPrompt val)] else []).
Proof.
  rewrite lookupZipLocation_guarded, guarded_call_cases.
  destruct (Js.truthy_opt (read_API_KEY env)); simpl; [|done].
  by destruct remote as [|[| |v]].
Qed.

(** Editing the postal code discards the estimate: the total falls back to
    the subtotal, prices are shown in USD at the rate 1, no country is
    selected, and the shipping line reads "Pending address" unless an
    estimate is under way.  The cost last estimated stays in its cell,
    unused. *)
Theorem zip_edit_discards_the_estimate (val : string) (s : checkout)
    (items : list Product) :
  let s1 := handleZipChange val s in
  zipCode s1 = val
  ∧ selectedCountry s1 = ""
  ∧ (totalUSD items s1 == subtotal items)%Q
  ∧ activeCurrency s1 = "USD"
  ∧ exchangeRate s1 = 1%Q
  ∧ shippingCost s1 = shippingCost s
  ∧ shippingLine s1 = (if isCalculating s then Calculating else PendingAddress).
Proof.
  intros s1. destruct (handleZipChange_resets val s) as (Hz & Hc & Hd & Hs & Hcalc & Hcost & _).
  fold s1 in Hz, Hc, Hd, Hs, Hcalc, Hcost.
  unfold totalUSD, activeCurrency, exchangeRate, shippingLine.
  rewrite Hc, Hd, Hcalc. repeat split; try done.
  apply Qplus_0_r.
Qed.

(** An estimate that completes with a result after the postal code was
    edited is applied all the same: it is shown as calculated, with its
    cost in the total, for the code now typed and with no country
    selected. *)
Theorem late_estimate_applies_after_zip_edit (val : string) (s : checkout)
    (r : ShippingEstimate) (items : list Product) :
  let s' := handleCalculateShipping_resume (Returned (Some r)) (handleZipChange val s) in
  zipCode s' = val
  ∧ selectedCountry s' = ""
  ∧ isShippingCalculated s' = true
  ∧ shippingCost s' = est_cost r
  ∧ totalUSD items s' = (subtotal items + est_cost r)%Q
  ∧ shippingLine s' = (if Qeq_bool (est_cost r) 0 then Free else Price (est_cost r)).
Proof.
  intros s'. destruct (handleZipChange_resets val s) as (Hz & _ & _ & Hs & _).
  unfold s', totalUSD, shippingLine. simpl. by rewrite Hz, Hs.
Qed.

(** A location is selected and its estimate completes with a result,
    nothing else happening in between: the code and the country are those
    of the location, the dropdown is closed, the cost is the estimated one,
    shown as "Free" when zero.  The currency is the estimated one unless
    empty, and the rate the estimated one unless zero, each falling back on
    its own (USD, 1). *)
Theorem selected_location_is_estimated (loc : LocationSuggestion) (s : checkout)
    (r : ShippingEstimate) (items : list Product) :
  let s1 := selectLocation loc s in
  let s' := handleCalculateShipping_resume (Returned (Some r)) s1 in
  shippingLine s1 = Calculating
  ∧ dropdownShown s1 = false
  ∧ zipCode s' = zip loc ∧ selectedCountry s' = country loc
  ∧ dropdownShown s' = false
  ∧ totalUSD items s' = (subtotal items + est_cost r)%Q
  ∧ shippingLine s' = (if Qeq_bool (est_cost r) 0 then Free else Price (est_cost r))
  ∧ activeCurrency s' = (if Js.truthy (est_currency r) then est_currency r else "USD")
  ∧ exchangeRate s' = (if Js.truthy_num (est_exchangeRate r) then est_exchangeRate r else 1%Q).
Proof. by repeat split. Qed.

(** The debounce: after any number of edits only the last one counts.  If
    the last input has at least 3 characters, the timer that elapses looks
    up that input and no other, with one request when there is a key and
    none otherwise; if it is shorter, no timer is armed. *)
Theorem last_input_wins (vals : list string) (val : string) (s : checkout)
    (env : process_env) (remote : reply (response (list LocationSuggestion))) :
  let s1 := run (map ZipChange vals ++ [ZipChange val]) s in
  zipCode s1 = val
  ∧ ((3 ≤ String.length val)%nat →
       ∃ s2, debounce_elapses env remote s1
             = Some (Returned s2,
                     if Js.truthy_opt (read_API_KEY env)
                     then [GenerateContent flash (ZipPrompt val)] else [])
             ∧ zipCode s2 = val)
  ∧ ((String.length val < 3)%nat → debounce_elapses env remote s1 = None).
Proof.
  intros s1. unfold s1. rewrite run_app. simpl.
  set (s0 := run (map ZipChange vals) s).
  destruct (handleZipChange_resets val s0) as (Hz & _ & _ & _ & _ & _ & Hd).
  split; [done|]. unfold debounce_elapses. rewrite Hd. split; intros Hlen.
  - rewrite (proj2 (Nat.leb_le _ _) Hlen), lookup_outcome. simpl.
    eexists. split; [reflexivity|]. done.
  - by rewrite (proj2 (Nat.leb_gt _ _) Hlen).
Qed.

Lemma last_input_wins_witness :
  let s1 := run (map ZipChange ["9"; "98"; "981"] ++ [ZipChange "9812"]) initial in
  zipCode s1 = "9812"
  ∧ ∃ s2, debounce_elapses (EnvKey (Some "key")) Rejected s1
          = Some (Returned s2, [GenerateContent flash (ZipPrompt "9812")])
          ∧ zipCode s2 = "9812".
Proof.
  destruct (last_input_wins ["9"; "98"; "981"] "9812" initial (EnvKey (Some "key")) Rejected)
    as (Hz & Hlong & _).
  split; [exact Hz|]. apply Hlong. simpl. lia.
Defined.

(** A lookup that fails cannot be told from one without matches: for an
    input of more than 4 characters, when the key is missing, the call
    fails, the answer has no text or is the empty array, the line
    "No matches found" is displayed and the dropdown is not. *)
Theorem failed_lookup_reads_no_matches (val : string) (s : checkout)
    (env : process_env) (remote : reply (response (list LocationSuggestion))) :
  (4 < String.length val)%nat →
  Js.truthy_opt (read_API_KEY env) = false ∨ fails remote
  ∨ remote = Resolved NoText ∨ remote = Resolved (Json []) →
  ∃ s2 sent,
    debounce_elapses env remote (handleZipChange val s) = Some (Returned s2, sent)
    ∧ suggestions s2 = []
    ∧ noMatchesShown s2 = true
    ∧ dropdownShown s2 = false
    ∧ isLookingUp s2 = false.
Proof.
  intros Hlen Hcause.
  assert ((3 <=? String.length val)%nat = true) as H3 by (apply Nat.leb_le; lia).
  assert ((4 <? String.length val)%nat = true) as H4 by (by apply Nat.ltb_lt).
  unfold debounce_elapses, handleZipChange. rewrite H3. simpl.
  rewrite lookup_outcome.
  assert ((if Js.truthy_opt (read_API_KEY env)
           then match remote with Resolved (Json v) => v | _ => [] end
           else []) = []) as ->.
  { destruct (Js.truthy_opt (read_API_KEY env)); [|done].
    destruct Hcause as [? | [[-> | ->] | [-> | ->]]]; done. }
  simpl. eexists _, _. split; [reflexivity|]. simpl.
  unfold noMatchesShown, dropdownShown. simpl. by rewrite H4.
Qed.

Lemma failed_lookup_reads_no_matches_witness :
  ∃ s2 sent,
    debounce_elapses (EnvKey (Some "key")) Rejected (handleZipChange "98121" initial)
    = Some (Returned s2, sent)
    ∧ suggestions s2 = []
    ∧ noMatchesShown s2 = true
    ∧ dropdownShown s2 = false
    ∧ isLookingUp s2 = false.
Proof.
  apply (failed_lookup_reads_no_matches "98121" initial (EnvKey (Some "key")) Rejected).
  - simpl. lia.
  - right. left. left. reflexivity.
Defined.

(** Selecting a location closes the dropdown but leaves the debounce timer
    armed and lookups under way: a lookup that completes afterwards with
    results opens the dropdown again, over the selected country and the
    estimate being calculated. *)
Theorem late_lookup_reopens_the_dropdown (loc : LocationSuggestion) (s : checkout)
    (results : list LocationSuggestion) :
  results ≠ [] →
  let s1 := selectLocation loc s in
  let s2 := step (LookupCompletes results) s1 in
  dropdownShown s1 = false
  ∧ debounceRef s1 = debounceRef s
  ∧ dropdownShown s2 = true
  ∧ suggestions s2 = results
  ∧ selectedCountry s2 = country loc
  ∧ isCalculating s2 = true.
Proof.
  intros Hne. repeat split; try done.
  unfold dropdownShown. simpl. by destruct results.
Qed.

Lemma late_lookup_reopens_the_dropdown_witness :
  dropdownShown (step (LookupCompletes [Examples.seattle])
                   (selectLocation Examples.seattle initial)) = true.
Proof.
  apply (late_lookup_reopens_the_dropdown Examples.seattle initial [Examples.seattle]).
  discriminate.
Defined.

Lemma step_keeps_spinner (e : event) (s : checkout) :
  keeps_spinner e = true →
  isLookingUp s = true → debounceRef s = None →
  isLookingUp (step e s) = true ∧ debounceRef (step e s) = None.
Proof.
  intros He Hs Hd. destruct e as [val | results | loc | [[r|]|]]; simpl in *; try done.
  unfold handleZipChange.
  apply Nat.ltb_lt in He. by rewrite (proj2 (Nat.leb_gt _ _) He).
Qed.

(** The spinner can stay for good: an input long enough for a lookup
    followed, before the timer elapses, by one too short for it leaves
    [isLookingUp] set with no timer armed, and it stays set through every
    further short input, selection and completed estimate; only a lookup
    completing would clear it, and none is scheduled. *)
Theorem spinner_outlives_a_cancelled_lookup (long short : string) (s : checkout)
    (evs : list event) :
  (3 ≤ String.length long)%nat →
  (String.length short < 3)%nat →
  forallb keeps_spinner evs = true →
  let s' := run (ZipChange long :: ZipChange short :: evs) s in
  isLookingUp s' = true
  ∧ debounceRef s' = None
  ∧ ∀ env remote, debounce_elapses env remote s' = None.
Proof.
  intros Hlong Hshort Hevs s'.
  assert (isLookingUp s' = true ∧ debounceRef s' = None) as [Hl Hd].
  { unfold s', run. simpl. fold (run evs).
    set (s0 := handleZipChange short (handleZipChange long s)).
    assert (isLookingUp s0 = true ∧ debounceRef s0 = None) as [H1 H2].
    { unfold s0, handleZipChange.
      rewrite (proj2 (Nat.leb_le _ _) Hlong), (proj2 (Nat.leb_gt _ _) Hshort). done. }
    clearbody s0. revert s0 H1 H2.
    induction evs as [|e evs IH]; intros s0 H1 H2; [done|].
    simpl in Hevs. apply andb_true_iff in Hevs as [He Hevs].
    unfold run. simpl. fold (run evs).
    destruct (step_keeps_spinner e s0 He H1 H2) as [H1' H2'].
    by apply IH. }
  split; [done|]. split; [done|].
  intros env remote. unfold debounce_elapses. by rewrite Hd.
Qed.

Lemma spinner_outlives_a_cancelled_lookup_witness :
  let s' := run [ZipChange "981"; ZipChange "98"; SelectLocation Examples.seattle] initial in
  isLookingUp s' = true
  ∧ debounceRef s' = None
  ∧ ∀ env remote, debounce_elapses env remote s' = None.
Proof.
  apply (spinner_outlives_a_cancelled_lookup "981" "98" initial
           [SelectLocation Examples.seattle]).
  - simpl. lia.
  - simpl. lia.
  - reflexivity.
Defined.

End CheckoutDisplay.

(** ** The cart *)

Section CartFacts.

Import Cart CheckoutView.

(** Removing a position that exists takes out exactly that item and keeps
    the others in their order; a position past the end changes nothing.
    The drawer's open state is never touched. *)
Theorem removeFromCart_spec (index : nat) (a : cart) :
  isCartOpen (removeFromCart index a) = isCartOpen a
  ∧ ((index < cartCount a)%nat →
       cartItems (removeFromCart index a)
       = take index (cartItems a) ++ drop (S index) (cartItems a)
       ∧ S (cartCount (removeFromCart index a)) = cartCount a
       ∧ ∀ j, cartItems (removeFromCart index a) !! j
              = cartItems a !! (if decide (j < index)%nat then j else S j))
  ∧ ((cartCount a ≤ index)%nat → removeFromCart index a = a).
Proof.
  unfold removeFromCart, cartCount. simpl. split; [done|]. split.
  - intros Hlt. split; [apply delete_take_drop|]. split.
    + rewrite length_delete by by apply lookup_lt_is_Some. lia.
    + intros j. case_decide.
      * by apply list_lookup_delete_lt.
      * apply list_lookup_delete_ge. lia.
  - intros Hge. destruct a as [items open]. simpl in *. f_equal.
    rewrite delete_take_drop, take_ge, drop_ge by lia. apply app_nil_r.
Qed.

Lemma removeFromCart_spec_witness :
  let a := {| cartItems := [Examples.lamp; Examples.band]; isCartOpen := false |} in
  cartItems (removeFromCart 0 a) = [Examples.band]
  ∧ removeFromCart 2 a = a.
Proof.
  intros a. destruct (removeFromCart_spec 0 a) as (_ & Hin & _).
  destruct (removeFromCart_spec 2 a) as (_ & _ & Hout).
  split.
  - apply Hin. unfold cartCount, a. simpl. lia.
  - apply Hout. unfold cartCount, a. simpl. lia.
Defined.

(** Adding a product puts it last, opens the drawer, raises the count by
    one and the subtotal by its price; the same product can be added
    twice.  Removing the last position right away gives back the items
    there were. *)
Theorem addToCart_spec (product : Product) (a : cart) :
  let a' := addToCart product a in
  isCartOpen a' = true
  ∧ cartCount a' = S (cartCount a)
  ∧ cartItems a' !! cartCount a = Some product
  ∧ (∀ j, (j < cartCount a)%nat → cartItems a' !! j = cartItems a !! j)
  ∧ subtotal (cartItems a') = (subtotal (cartItems a) + p_price product)%Q
  ∧ cartItems (removeFromCart (cartCount a) a') = cartItems a
  ∧ cartCount (addToCart product a') = S (S (cartCount a)).
Proof.
  unfold addToCart, removeFromCart, cartCount, subtotal. simpl.
  split; [done|]. split; [rewrite length_app; simpl; lia|].
  split; [by rewrite list_lookup_middle|].
  split; [intros j Hj; by rewrite lookup_app_l|].
  split; [by rewrite foldl_app|].
  split.
  - rewrite (delete_middle (cartItems a) [] product). apply app_nil_r.
  - rewrite !length_app. simpl. lia.
Qed.

End CartFacts.

(** ** The loading overlay *)

Section LoaderFacts.

Import Loader.

Lemma loader_invariant_step (e : event) (s s' : loader) :
  loader_invariant s → step e s = Some s' → loader_invariant s'.
Proof.
  intros (Hv & Hf & Hu) Hstep. destruct e as [[|]|]; simpl in Hstep.
  - inversion Hstep; subst. by repeat split.
  - inversion Hstep; subst. by repeat split.
  - unfold elapse in Hstep. destruct (armed s) as [[|]|] eqn:Ha; [| |done].
    + inversion Hstep; subst. repeat split; simpl; auto; done.
    + inversion Hstep; subst. repeat split; simpl; try done.
      intros Hvis. rewrite Hu in Hvis; done.
Qed.

(** The overlay is never faded in while it is out of the document: in
    every state the component reaches, [visible] implies [mounted]. *)
Theorem overlay_visible_only_when_mounted (s : loader) :
  reachable s → visible s = true → rendered s = true.
Proof.
  intros Hreach.
  assert (loader_invariant s) as (Hv & _); [|exact Hv].
  induction Hreach as [|e s s' _ IH Hstep]; [by repeat split|].
  by eapply loader_invariant_step.
Qed.

Lemma overlay_visible_only_when_mounted_witness :
  rendered {| mounted := true; visible := true; armed := None |} = true.
Proof.
  apply (overlay_visible_only_when_mounted {| mounted := true; visible := true; armed := None |}).
  - apply (reachable_step Elapses (effect true initial)); [|reflexivity].
    apply (reachable_step (IsTranslating true) initial); [|reflexivity].
    apply reachable_initial.
  - reflexivity.
Defined.

(** However [isTranslating] has flipped before, once its last value has
    stood long enough for the timer to elapse the overlay is in the
    document and faded in when that value is true, and out of the document
    and faded out when it is false; no timer is left armed. *)
Theorem overlay_settles_on_the_last_value (bs : list bool) (b : bool) (s : loader) :
  elapse (effects (bs ++ [b]) s)
  = Some {| mounted := b; visible := b; armed := None |}.
Proof.
  unfold effects. rewrite foldl_app. simpl. by destruct b.
Qed.

End LoaderFacts.

(** ** The product page *)

Section DetailFacts.

Import Service ServiceSpec Detail.

Lemma related_lookup product_id PRODUCTS product (i : nat) (p : Product) :
  relatedProducts product_id PRODUCTS product !! i = Some p →
  let others := otherProducts product_id PRODUCTS product in
  let same := filter (λ q, p_category q = p_category product) others in
  let rest := filter (λ q, p_category q ≠ p_category product) others in
  (i < 3)%nat
  ∧ (same !! i = Some p
     ∨ (length same ≤ i)%nat ∧ rest !! (i - length same)%nat = Some p).
Proof.
  unfold relatedProducts. intros [H Hi]%lookup_take_Some.
  split; [done|]. by apply lookup_app_Some.
Qed.

(** The related products are at most three, as many as there are other
    products when these are fewer; each is a product of the catalog other
    than the one shown; and those of the category of the product shown come
    before all the others. *)
Theorem relatedProducts_spec (product_id : Product → string) (PRODUCTS : list Product)
    (product : Product) :
  let related := relatedProducts product_id PRODUCTS product in
  length related = min 3 (length (otherProducts product_id PRODUCTS product))
  ∧ (∀ p, p ∈ related → p ∈ PRODUCTS ∧ product_id p ≠ product_id product)
  ∧ (∀ i j p q,
       (i < j)%nat → related !! i = Some p → related !! j = Some q →
       p_category q = p_category product → p_category p = p_category product).
Proof.
  intros related. split; [|split].
  - unfold related, relatedProducts. rewrite length_take. f_equal.
    apply Permutation_length.
    apply (filter_app_complement (λ q, p_category q = p_category product)).
  - intros p [i Hi]%list_elem_of_lookup_1.
    apply related_lookup in Hi as [_ [H | [_ H]]];
      apply list_elem_of_lookup_2, list_elem_of_filter in H as [_ H];
      apply list_elem_of_filter in H as [? ?]; done.
  - intros i j p q Hij Hp Hq Hcat.
    apply related_lookup in Hp as [_ [Hp | [Hlen Hp]]].
    + by apply list_elem_of_lookup_2, list_elem_of_filter in Hp as [? _].
    + apply related_lookup in Hq as [_ [Hq | [_ Hq]]].
      * apply lookup_lt_Some in Hq. lia.
      * by apply list_elem_of_lookup_2, list_elem_of_filter in Hq as [? _].
Qed.

Lemma relatedProducts_spec_witness :
  relatedProducts p_name [Examples.lamp; Examples.band; Examples.speaker] Examples.lamp
  = [Examples.speaker; Examples.band]
  ∧ ∀ i j p q,
      (i < j)%nat →
      relatedProducts p_name [Examples.lamp; Examples.band; Examples.speaker] Examples.lamp
        !! i = Some p →
      relatedProducts p_name [Examples.lamp; Examples.band; Examples.speaker] Examples.lamp
        !! j = Some q →
      p_category q = p_category Examples.lamp → p_category p = p_category Examples.lamp.
Proof.
  split; [by vm_compute|].
  apply (relatedProducts_spec p_name [Examples.lamp; Examples.band; Examples.speaker]
           Examples.lamp).
Defined.

Lemma stored_setShowTranslation (b : bool) (s : detail) :
  stored (setShowTranslation b s) = stored s.
Proof. reflexivity. Qed.

Lemma handleTranslate_stored env remote product (s : detail) :
  stored s = true →
  handleTranslate env remote product s
  = (Returned (setShowTranslation (negb (showTranslation s)) s), []).
Proof.
  intros Hs. unfold handleTranslate, handleTranslate_start.
  destruct (showTranslation s); [done|]. by rewrite Hs.
Qed.

(** Once a translation with a non-empty description is stored, the button
    only toggles between it and the original: however many clicks follow
    and whatever the remote would answer, no request is sent and the stored
    translation is kept. *)
Theorem stored_translation_is_not_fetched_again (product : Product) (s : detail)
    (outcomes : list (process_env * reply (response (option translatedDetails)))) :
  stored s = true →
  clicks outcomes product s
  = (Returned (setShowTranslation
                 (xorb (showTranslation s) (Nat.odd (length outcomes))) s), []).
Proof.
  revert s. induction outcomes as [|[env remote] outcomes IH]; intros s Hs.
  - simpl. rewrite xorb_false_r. by destruct s.
  - cbn [clicks]. rewrite (handleTranslate_stored _ _ _ _ Hs).
    rewrite IH by done. simpl app. f_equal. f_equal.
    cbn [length]. rewrite Nat.odd_succ, <- Nat.negb_odd.
    unfold setShowTranslation. simpl.
    by destruct (showTranslation s), (Nat.odd (length outcomes)).
Qed.

Lemma stored_translation_is_not_fetched_again_witness :
  let s := {| selectedSize := None; translatedDesc := Some "Una lampada.";
              translatedFeatures := Some ["Caldo"]; isTranslating := false;
              showTranslation := true |} in
  clicks [(EnvKey (Some "key"), Rejected); (EnvKey None, Rejected)] Examples.lamp s
  = (Returned s, []).
Proof.
  intros s.
  apply (stored_translation_is_not_fetched_again Examples.lamp s
           [(EnvKey (Some "key"), Rejected); (EnvKey None, Rejected)]).
  reflexivity.
Defined.

(** The first click with a key and a well-formed answer sends one request,
    for the long description when there is one, and shows the translated
    description and features.  The translation counts as stored only when
    its description is non-empty: an empty one is asked for again. *)
Theorem translation_is_fetched_and_shown (env : process_env) (product : Product)
    (s : detail) (r : translatedDetails) :
  showTranslation s = false →
  stored s = false →
  Js.truthy_opt (read_API_KEY env) = true →
  ∃ s',
    handleTranslate env (Resolved (Json (Some r))) product s
    = (Returned s',
       [GenerateContent flash
          (TranslateDetailsPrompt (original product) (p_features product) "Italian")])
    ∧ shownDescription product s' = Some (translatedDescription r)
    ∧ currentFeatures product s' = Service.translatedFeatures r
    ∧ isTranslating s' = false
    ∧ stored s' = Js.truthy (translatedDescription r).
Proof.
  intros Hshow Hstored Hkey. unfold handleTranslate, handleTranslate_start.
  rewrite Hshow, Hstored.
  rewrite translateProductDetails_guarded, guarded_call_cases, Hkey. simpl.
  eexists. split; [reflexivity|]. unfold stored. simpl.
  repeat split. rewrite andb_true_r. done.
Qed.

Lemma translation_is_fetched_and_shown_witness :
  ∃ s',
    handleTranslate (EnvKey (Some "key")) (Resolved (Json (Some Examples.lampada)))
      Examples.lamp initial
    = (Returned s',
       [GenerateContent flash (TranslateDetailsPrompt "A lamp." ["Warm"] "Italian")])
    ∧ shownDescription Examples.lamp s' = Some "Una lampada."
    ∧ currentFeatures Examples.lamp s' = ["Caldo"]
    ∧ isTranslating s' = false
    ∧ stored s' = true.
Proof.
  apply (translation_is_fetched_and_shown (EnvKey (Some "key")) Examples.lamp initial
           Examples.lampada); reflexivity.
Defined.

(** A click whose translation is not obtained (no key, a failing call, an
    answer without text or null) leaves the page on the original text with
    the button enabled and nothing stored, so that the next click asks
    again. *)
Theorem failed_translation_keeps_the_original (env : process_env)
    (remote : reply (response (option translatedDetails)))
    (product : Product) (s : detail) :
  showTranslation s = false →
  stored s = false →
  Js.truthy_opt (read_API_KEY env) = false ∨ fails remote
  ∨ remote = Resolved NoText ∨ remote = Resolved (Json None) →
  ∃ sent,
    handleTranslate env remote product s = (Returned (setIsTranslating false s), sent)
    ∧ shownDescription product (setIsTranslating false s) = Some (original product)
    ∧ currentFeatures product (setIsTranslating false s) = p_features product
    ∧ snd (handleTranslate_start (setIsTranslating false s)) = true.
Proof.
  intros Hshow Hstored Hcause. unfold handleTranslate, handleTranslate_start.
  rewrite Hshow, Hstored.
  rewrite translateProductDetails_guarded, guarded_call_cases.
  assert (∀ b, currentFeatures product (setIsTranslating b s) = p_features product) as Hf.
  { intros b. unfold currentFeatures. simpl. by rewrite Hshow. }
  assert (∀ b, shownDescription product (setIsTranslating b s) = Some (original product))
    as Hd.
  { intros b. unfold shownDescription. simpl. by rewrite Hshow. }
  assert (stored (setIsTranslating false s) = false) as Hst by done.
  simpl. rewrite Hshow. rewrite Hst.
  destruct (Js.truthy_opt (read_API_KEY env)); simpl.
  - destruct Hcause as [? | [[-> | ->] | [-> | ->]]]; try done; eexists; simpl; eauto.
  - eexists; simpl; eauto.
Qed.

Lemma failed_translation_keeps_the_original_witness :
  ∃ sent,
    handleTranslate (EnvKey (Some "key")) Rejected Examples.lamp initial
    = (Returned (setIsTranslating false initial), sent)
    ∧ shownDescription Examples.lamp (setIsTranslating false initial) = Some "A lamp."
    ∧ currentFeatures Examples.lamp (setIsTranslating false initial) = ["Warm"]
    ∧ snd (handleTranslate_start (setIsTranslating false initial)) = true.
Proof.
  apply (failed_translation_keeps_the_original (EnvKey (Some "key")) Rejected
           Examples.lamp initial).
  - reflexivity.
  - reflexivity.
  - right. left. left. reflexivity.
Defined.



End DetailFacts.
